(** * Solar PPA cash-flow projection engine (src/src/App.jsx)

    Shallow embedding of the projection engine of the PPA calculator:
    the financial primitives [pmt], [npv], [irr], the yearly builder
    [buildYearlyProjection] and the monthly expansion
    [buildMonthlyProjection].

    A JavaScript Number is an IEEE-754 binary64 value.  The engine is
    written once over an interface [Arith] of the Number operations it
    uses and run at two instances:
    - [f64], Rocq's primitive binary64 floats: the arithmetic the
      program really executes (NaN, infinities, signed zeros, rounding
      to nearest even);
    - [exact], the rationals [Qc]: the same program in exact arithmetic,
      used to say what "equal up to rounding" means.
    [Math.pow] is only "implementation-approximated" in ECMAScript, so
    both instances take it as a parameter. *)

From Stdlib Require Import String DecimalString.
From Stdlib Require Import ZArith List Bool Lia.
From Stdlib Require Import QArith Qcanon Qround Qabs.
From Stdlib Require Import Floats.
From Stdlib Require DecimalPos DecimalZ.
Import ListNotations.

#[local] Set Warnings "-inexact-float".
#[local] Open Scope Z_scope.

(** ** The Number interface *)

Declare Scope num_scope.
Delimit Scope num_scope with num.

Class Arith (num : Type) : Type := {
  num_of_Z : Z -> num;            (* an integer literal or loop counter *)
  nadd : num -> num -> num;
  nsub : num -> num -> num;
  nmul : num -> num -> num;
  ndiv : num -> num -> num;
  nopp : num -> num;
  neqb : num -> num -> bool;      (* a === b *)
  nltb : num -> num -> bool;      (* a < b *)
  nleb : num -> num -> bool;      (* a <= b *)
  Math_abs : num -> num;
  Math_round : num -> num;
  Math_max : num -> num -> num;
  Math_min : num -> num -> num;
  Math_pow : num -> num -> num;
  isFinite : num -> bool
}.

Notation "x + y" := (nadd x y) : num_scope.
Notation "x - y" := (nsub x y) : num_scope.
Notation "x * y" := (nmul x y) : num_scope.
Notation "x / y" := (ndiv x y) : num_scope.
Notation "- x" := (nopp x) : num_scope.
Notation "x === y" := (neqb x y) (at level 70, no associativity) : num_scope.
Notation "x <? y" := (nltb x y) : num_scope.
Notation "x <=? y" := (nleb x y) : num_scope.
Notation "x >? y" := (nltb y x) : num_scope.
Notation "x >=? y" := (nleb y x) : num_scope.
Notation "$ z" := (num_of_Z z) (at level 1, format "$ z") : num_scope.

(** A decimal literal [m/d] such as [0.15 = 15/100]: numerator and
    denominator are exact and the division rounds once, which is the
    binary64 value the literal denotes. *)
Definition dec {num} `{Arith num} (m d : Z) : num := ($m / $d)%num.

(** ** Data model *)

(** The inputs of a projection.  Every field is a Number except
    [contractYears], the bound of the year loop, which the data model
    fixes as an integer: the rows are counted by it and the loop counter
    [y] enters the arithmetic through [num_of_Z]. *)
Record ProjectionConfig (num : Type) : Type := {
  capacityKw : num;
  unitsPerKwDay : num;
  degradationPct : num;
  contractYears : Z;
  ppaTariff : num;
  tariffEscalationPct : num;
  capexPerKw : num;
  upfrontPercent : num;
  loanInterestPct : num;
  loanTenureYears : num;
  omrPerKwYear : num;
  omrEscalationPct : num;
  discountRatePct : num
}.
Arguments capacityKw {num}. Arguments unitsPerKwDay {num}.
Arguments degradationPct {num}. Arguments contractYears {num}.
Arguments ppaTariff {num}. Arguments tariffEscalationPct {num}.
Arguments capexPerKw {num}. Arguments upfrontPercent {num}.
Arguments loanInterestPct {num}. Arguments loanTenureYears {num}.
Arguments omrPerKwYear {num}. Arguments omrEscalationPct {num}.
Arguments discountRatePct {num}.

Module YearRow.
Record t (num : Type) : Type := mk {
  year : Z;
  generationKwh : num;
  tariff : num;
  revenue : num;
  omr : num;
  emi : num;
  net : num
}.
Arguments mk {num}. Arguments year {num}. Arguments generationKwh {num}.
Arguments tariff {num}. Arguments revenue {num}. Arguments omr {num}.
Arguments emi {num}. Arguments net {num}.
End YearRow.

Module CumPoint.
Record t (num : Type) : Type := mk { year : Z; value : num }.
Arguments mk {num}. Arguments year {num}. Arguments value {num}.
End CumPoint.

Module YearlySummary.
Record t (num : Type) : Type := mk {
  capexTotal : num;
  upfront : num;
  loanAmount : num;
  year1Gen : num;
  year1Revenue : num;
  emiAnnual : num;
  paybackYear : option Z;       (* [None] is null *)
  npv : num;
  irr : option num;             (* [None] is null *)
  cumulative : list (CumPoint.t num);
  rows : list (YearRow.t num)
}.
Arguments mk {num}. Arguments capexTotal {num}. Arguments upfront {num}.
Arguments loanAmount {num}. Arguments year1Gen {num}.
Arguments year1Revenue {num}. Arguments emiAnnual {num}.
Arguments paybackYear {num}. Arguments npv {num}. Arguments irr {num}.
Arguments cumulative {num}. Arguments rows {num}.
End YearlySummary.

Module MonthRow.
Record t (num : Type) : Type := mk {
  key : string;
  label : string;
  month : string;
  generationKwh : num;
  tariff : num;
  revenue : num;
  omr : num;
  emi : num;
  net : num
}.
Arguments mk {num}. Arguments key {num}. Arguments label {num}.
Arguments month {num}. Arguments generationKwh {num}.
Arguments tariff {num}. Arguments revenue {num}. Arguments omr {num}.
Arguments emi {num}. Arguments net {num}.
End MonthRow.

Module MonthlySummary.
Record t (num : Type) : Type := mk {
  rows : list (MonthRow.t num);
  cumulative : list num
}.
Arguments mk {num}. Arguments rows {num}. Arguments cumulative {num}.
End MonthlySummary.

Module IrrRun.
Record t (num : Type) : Type := mk {
  rate : num;
  iterations : nat;
  broke : bool
}.
Arguments mk {num}. Arguments rate {num}. Arguments iterations {num}.
Arguments broke {num}.
End IrrRun.

(** A JavaScript completion: a value, or an exception in flight. *)
Inductive completion (A : Type) : Type :=
| Normal (v : A)
| Throw.
Arguments Normal {A}. Arguments Throw {A}.

(** [try { return body } catch { return handler }] *)
Definition tryCatch {A} (body : completion A) (handler : A) : A :=
  match body with
  | Normal v => v
  | Throw => handler
  end.

(** [return f(body)]: the value passes through [f], an exception
    passes through unchanged. *)
Definition returning {A B} (f : A -> B) (body : completion A) : completion B :=
  match body with
  | Normal v => Normal (f v)
  | Throw => Throw
  end.

(** ** The engine *)

Section Engine.
Context {num : Type} {AR : Arith num}.
#[local] Open Scope num_scope.

(** *** Utility functions *)

(** [if (rate === 0) return -(pv / nper);
     return -(pv * r) / (1 - Math.pow(1 + r, -nper));] *)
Definition pmt (rate nper pv : num) : num :=
  if rate === $0 then - (pv / nper)
  else
    let r := rate in
    - (pv * r) / ($1 - Math_pow ($1 + r) (- nper)).

(** [arr.reduce((acc, x, i) => f acc x i, init)], from index [i]. *)
Fixpoint reduce_from {A B : Type} (f : B -> A -> Z -> B)
         (i : Z) (arr : list A) (acc : B) : B :=
  match arr with
  | [] => acc
  | x :: rest => reduce_from f (i + 1)%Z rest (f acc x i)
  end.

Definition reduce {A B : Type} (f : B -> A -> Z -> B) (arr : list A) (init : B) : B :=
  reduce_from f 0%Z arr init.

(** [cashflows.reduce((acc, cf, i) =>
       acc + cf / Math.pow(1 + discountRate, i), 0)] *)
Definition npv (discountRate : num) (cashflows : list num) : num :=
  reduce (fun acc cf i => acc + cf / Math_pow ($1 + discountRate) $i)
         cashflows $0.

(** The inner loop of [irr], one pass over the cash flows from index
    [t]:
    [f += cashflows[t] / Math.pow(1 + rate, t);
     if (t > 0) df += (-t * cashflows[t]) / Math.pow(1 + rate, t + 1);] *)
Fixpoint irr_pass (rate : num) (t : Z) (cashflows : list num) (f df : num) : num * num :=
  match cashflows with
  | [] => (f, df)
  | cf :: rest =>
      let denom := Math_pow ($1 + rate) $t in
      let f := f + cf / denom in
      let df := if (0 <? t)%Z
                then df + (- $t * cf) / Math_pow ($1 + rate) $(t + 1)
                else df in
      irr_pass rate (t + 1)%Z rest f df
  end.

(** The outer loop of [irr] with [budget] of its 100 iterations left:
    [const step = f / df; rate -= step;
     if (!isFinite(rate) || Math.abs(step) < 1e-8) break;]
    Besides the rate it returns, the embedding records how many
    Newton-Raphson iterations ran and whether the loop left through
    [break]. *)
Fixpoint irr_loop (budget : nat) (cashflows : list num) (rate : num) : IrrRun.t num :=
  match budget with
  | O => IrrRun.mk rate O false
  | S budget' =>
      let '(f, df) := irr_pass rate 0%Z cashflows $0 $0 in
      let step := f / df in
      let rate := rate - step in
      if negb (isFinite rate) || (Math_abs step <? dec 1 100000000)
      then IrrRun.mk rate 1%nat true
      else
        let run := irr_loop budget' cashflows rate in
        IrrRun.mk (IrrRun.rate run) (S (IrrRun.iterations run)) (IrrRun.broke run)
  end.

(** The default [guess = 0.15]. *)
Definition irr_guess : num := dec 15 100.

Definition irr_run (cashflows : list num) (guess : num) : IrrRun.t num :=
  irr_loop 100 cashflows guess.

(** [irr]: no operation of its body can throw on an array of Numbers,
    so it completes normally with the final rate. *)
Definition irr (cashflows : list num) (guess : num) : completion num :=
  Normal (IrrRun.rate (irr_run cashflows guess)).

(** *** Core calculator (yearly) *)

Section Yearly.
Variable cfg : ProjectionConfig num.

(** The constants computed before the loop. *)

Definition daysPerYear : num := $365.
Definition year1Gen : num := capacityKw cfg * unitsPerKwDay cfg * daysPerYear.
Definition capexTotal : num := capacityKw cfg * capexPerKw cfg.
Definition upfront : num := (upfrontPercent cfg / $100) * capexTotal.
Definition loanAmount : num := capexTotal - upfront.
Definition loanRate : num := loanInterestPct cfg / $100.
Definition loanNper : num :=
  Math_max $0 (Math_min $(contractYears cfg) (loanTenureYears cfg)).
Definition emiAnnual : num :=
  if loanNper >? $0 then pmt loanRate loanNper loanAmount else $0.

(** The year-0 row: the upfront outlay only. *)
Definition row0 : YearRow.t num :=
  YearRow.mk 0%Z $0 $0 $0 $0 $0 (- upfront).

(** The body of [for (let y = 1; y <= contractYears; y++)], with
    [n] iterations left and the loop-carried [gen], [tariff], [omr]. *)
Fixpoint yearLoop (n : nat) (y : Z) (gen tariff omr : num) : list (YearRow.t num) :=
  match n with
  | O => []
  | S n' =>
      let gen := if (1 <? y)%Z then gen * ($1 - degradationPct cfg / $100) else gen in
      let tariff := if (1 <? y)%Z then tariff * ($1 + tariffEscalationPct cfg / $100) else tariff in
      let omr := if (1 <? y)%Z then omr * ($1 + omrEscalationPct cfg / $100) else omr in
      let revenue := gen * tariff in
      let loanPayment := if $y <=? loanNper then emiAnnual else $0 in
      let net := revenue - omr + loanPayment in
      YearRow.mk y (Math_round gen) tariff revenue omr loanPayment net
        :: yearLoop n' (y + 1)%Z gen tariff omr
  end.

Definition projectionRows : list (YearRow.t num) :=
  row0 :: yearLoop (Z.to_nat (contractYears cfg)) 1%Z
                   year1Gen (ppaTariff cfg) (capacityKw cfg * omrPerKwYear cfg).
End Yearly.

(** The payback loop from index [i] with running total [cum]:
    [cum += rows[i].net; if (cum >= 0) return i;] and [null] after the
    last row. *)
Fixpoint paybackFrom (i : Z) (cum : num) (rows : list (YearRow.t num)) : option Z :=
  match rows with
  | [] => None
  | r :: rest =>
      let cum := cum + YearRow.net r in
      if cum >=? $0 then Some i else paybackFrom (i + 1)%Z cum rest
  end.

(** The callback of the reduce that builds [cumulative]:
    [const prev = acc.length ? acc[acc.length - 1].value : 0;
     acc.push({ year: r.year, value: prev + r.net });] *)
Definition cumulativeStep (acc : list (CumPoint.t num)) (r : YearRow.t num)
  : list (CumPoint.t num) :=
  let prev := match acc with
              | [] => $0
              | c :: _ => CumPoint.value (last acc c)
              end in
  acc ++ [CumPoint.mk (YearRow.year r) (prev + YearRow.net r)].

(** The summary object.  [irr] is guarded by
    [try { return irr(cashflows); } catch { return null; }]. *)
Definition buildYearlyProjection (cfg : ProjectionConfig num) : YearlySummary.t num :=
  let rows := projectionRows cfg in
  let cashflows := map YearRow.net rows in
  YearlySummary.mk
    (capexTotal cfg)
    (upfront cfg)
    (loanAmount cfg)
    (Math_round (year1Gen cfg))
    (year1Gen cfg * ppaTariff cfg)
    (emiAnnual cfg)
    (paybackFrom 0%Z $0 rows)
    (npv (discountRatePct cfg / $100) cashflows)
    (tryCatch (returning Some (irr cashflows irr_guess)) None)
    (fold_left cumulativeStep rows [])
    rows.

(** *** Monthly expansion (derived from yearly) *)

Definition months : list string :=
  ["Jan"; "Feb"; "Mar"; "Apr"; "May"; "Jun";
   "Jul"; "Aug"; "Sep"; "Oct"; "Nov"; "Dec"]%string.

(** The decimal text of an integer, as a template literal prints it. *)
Definition showZ (z : Z) : string := NilZero.string_of_int (Z.to_int z).

(** The row pushed for month [m] (0-based) of year [y]. *)
Definition monthRow (y : Z) (yr : YearRow.t num) (m : nat) : MonthRow.t num :=
  let monthlyGen := YearRow.generationKwh yr / $12 in
  let monthlyTariff := YearRow.tariff yr in
  let monthlyRevenue := YearRow.revenue yr / $12 in
  let monthlyOMR := YearRow.omr yr / $12 in
  let monthlyEMI := YearRow.emi yr / $12 in
  let monthlyNet := YearRow.net yr / $12 in
  MonthRow.mk
    ("Y" ++ showZ y ++ "-M" ++ showZ (Z.of_nat m + 1))%string
    ("Y" ++ showZ y)%string
    (nth m months EmptyString)
    (Math_round monthlyGen)
    monthlyTariff monthlyRevenue monthlyOMR monthlyEMI monthlyNet.

(** The body of [for (let y = 1; y < yearly.rows.length; y++)]: [yrs]
    are the rows [yearly.rows[y]], [yearly.rows[y+1]], ... *)
Fixpoint monthLoop (y : Z) (yrs : list (YearRow.t num)) : list (MonthRow.t num) :=
  match yrs with
  | [] => []
  | yr :: rest => map (monthRow y yr) (seq 0 12) ++ monthLoop (y + 1)%Z rest
  end.

(** [let cum = 0; rows.map((r) => (cum += r.net))] *)
Fixpoint runningNet (cum : num) (rows : list (MonthRow.t num)) : list num :=
  match rows with
  | [] => []
  | r :: rest => let cum := cum + MonthRow.net r in cum :: runningNet cum rest
  end.

(** [yearly.rows[0].net] throws a TypeError when [yearly.rows] is
    empty: the builder is then [Throw]. *)
Definition buildMonthlyProjection (yearly : YearlySummary.t num)
  : completion (MonthlySummary.t num) :=
  match YearlySummary.rows yearly with
  | [] => Throw
  | r0 :: yrs =>
      let rows :=
        MonthRow.mk "Y0-M0" "Y0" "-" $0 $0 $0 $0 $0 (YearRow.net r0)
          :: monthLoop 1%Z yrs in
      Normal (MonthlySummary.mk rows (runningNet $0 rows))
  end.

(** *** Vocabulary of the specification *)

(** The sum [xs[0] + xs[1] + ...], accumulated left to right from 0
    as the code accumulates it. *)
Definition sum (xs : list num) : num := fold_left nadd xs $0.

(** Sum of the first [i+1] net cash flows. *)
Definition netUpTo (rows : list (YearRow.t num)) (i : nat) : num :=
  sum (map YearRow.net (firstn (S i) rows)).

Definition monthlyNetUpTo (rows : list (MonthRow.t num)) (i : nat) : num :=
  sum (map MonthRow.net (firstn (S i) rows)).

(** The twelve monthly rows of contract year [y >= 1]. *)
Definition monthsOfYear (m : MonthlySummary.t num) (y : nat) : list (MonthRow.t num) :=
  firstn 12 (skipn (1 + 12 * (y - 1)) (MonthlySummary.rows m)).

(** Pre-rounding generation of year [y >= 1]: the base generation
    decayed [y - 1] times. *)
Fixpoint genOfYear (cfg : ProjectionConfig num) (y : nat) : num :=
  match y with
  | O | S O => year1Gen cfg
  | S y' => genOfYear cfg y' * ($1 - degradationPct cfg / $100)
  end.

(** The distance between the re-aggregated monthly net of year [y] and
  the yearly net. *)
Definition roundTripGap (s : YearlySummary.t num) (m : MonthlySummary.t num)
           (y : nat) : option num :=
  match nth_error (YearlySummary.rows s) y with
  | Some yr => Some (Math_abs (sum (map MonthRow.net (monthsOfYear m y)) - YearRow.net yr))
  | None => None
  end.

(** [x != 0] *)
Definition nonzero (x : num) : bool := negb (x === $0).
End Engine.

(** ** Binary64 instance: the arithmetic the program runs on *)

Module F64.
#[local] Open Scope float_scope.

(** Integer to Number: the nearest binary64 value, ties to even. *)
Definition of_Z (z : Z) : float := SF2Prim (binary_normalize prec emax z 0 false).

(** [Math.round]: the nearest integer, ties towards +Infinity; NaN,
    infinities, zeros and integral values are returned unchanged and
    a result in (-0.5, 0) is -0. *)
Definition round (x : float) : float :=
  match Prim2SF x with
  | S754_finite s m e =>
      if (0 <=? e)%Z then x
      else
        let d := (2 ^ (- e))%Z in
        let n := if s then Z.neg m else Z.pos m in
        let q := ((2 * n + d) / (2 * d))%Z in
        if (q =? 0)%Z then (if s then neg_zero else zero) else of_Z q
  | _ => x
  end.

(** [Math.max] and [Math.min] on two arguments: NaN if either is NaN,
    and -0 is smaller than +0. *)
Definition max (a b : float) : float :=
  if is_nan a || is_nan b then nan
  else if a <? b then b
  else if b <? a then a
  else if get_sign a then b else a.

Definition min (a b : float) : float :=
  if is_nan a || is_nan b then nan
  else if a <? b then a
  else if b <? a then b
  else if get_sign a then a else b.

(** The integer a Number denotes, if it is integral. *)
Definition to_Z (x : float) : option Z :=
  match Prim2SF x with
  | S754_zero _ => Some 0%Z
  | S754_finite s m e =>
      let n := if s then Z.neg m else Z.pos m in
      if (0 <=? e)%Z then Some (n * 2 ^ e)%Z
      else
        let d := (2 ^ (- e))%Z in
        if (n mod d =? 0)%Z then Some (n / d)%Z else None
  | _ => None
  end.

(** A reference [Math.pow] for integral exponents, by repeated
    multiplication; NaN elsewhere.  It agrees with ECMAScript where
    the standard fixes the result ([pow(x, 0) = 1]) and is within
    rounding of it otherwise. *)
Definition pow_int (b y : float) : float :=
  match to_Z y with
  | Some Z0 => 1
  | Some (Z.pos p) => Pos.iter (mul b) 1 p
  | Some (Z.neg p) => 1 / Pos.iter (mul b) 1 p
  | None => nan
  end.
End F64.

Definition f64 (pow : float -> float -> float) : Arith float := {|
  num_of_Z := F64.of_Z;
  nadd := PrimFloat.add;
  nsub := PrimFloat.sub;
  nmul := PrimFloat.mul;
  ndiv := PrimFloat.div;
  nopp := PrimFloat.opp;
  neqb := PrimFloat.eqb;
  nltb := PrimFloat.ltb;
  nleb := PrimFloat.leb;
  Math_abs := PrimFloat.abs;
  Math_round := F64.round;
  Math_max := F64.max;
  Math_min := F64.min;
  Math_pow := pow;
  isFinite := PrimFloat.is_finite
|}.

(** ** Exact instance: the same program over the rationals *)

Module Exact.
#[local] Open Scope Qc_scope.

Definition of_Z (z : Z) : Qc := Q2Qc (inject_Z z).
Definition eqb (a b : Qc) : bool := Qeq_bool a b.
Definition leb (a b : Qc) : bool := Qle_bool a b.
Definition ltb (a b : Qc) : bool := negb (Qle_bool b a).
Definition abs (a : Qc) : Qc := Q2Qc (Qabs a).
Definition round (a : Qc) : Qc := of_Z (Qfloor (a + Q2Qc (1 # 2))).
Definition max (a b : Qc) : Qc := if leb a b then b else a.
Definition min (a b : Qc) : Qc := if leb a b then a else b.
End Exact.

Definition exact (pow : Qc -> Qc -> Qc) : Arith Qc := {|
  num_of_Z := Exact.of_Z;
  nadd := Qcplus;
  nsub := Qcminus;
  nmul := Qcmult;
  ndiv := Qcdiv;
  nopp := Qcopp;
  neqb := Exact.eqb;
  nltb := Exact.ltb;
  nleb := Exact.leb;
  Math_abs := Exact.abs;
  Math_round := Exact.round;
  Math_max := Exact.max;
  Math_min := Exact.min;
  Math_pow := pow;
  isFinite := fun _ => true
|}.

(** The engine on binary64 with the reference [Math.pow]. *)
Definition js : Arith float := f64 F64.pow_int.

(** ** Concrete configurations *)

(** The calculator's initial inputs (useState in App). *)
Definition defaultInputs : ProjectionConfig float := {|
  capacityKw := 50;
  unitsPerKwDay := 4.2;
  degradationPct := 0.6;
  contractYears := 20;
  ppaTariff := 5.0;
  tariffEscalationPct := 2.0;
  capexPerKw := 42000;
  upfrontPercent := 20;
  loanInterestPct := 11.5;
  loanTenureYears := 7;
  omrPerKwYear := 800;
  omrEscalationPct := 3.0;
  discountRatePct := 12.0
|}%float.

(** 100% upfront payment: nothing is financed. *)
Definition fullyUpfront : ProjectionConfig float := {|
  capacityKw := 50;
  unitsPerKwDay := 4.2;
  degradationPct := 0.6;
  contractYears := 20;
  ppaTariff := 5.0;
  tariffEscalationPct := 2.0;
  capexPerKw := 42000;
  upfrontPercent := 100;
  loanInterestPct := 11.5;
  loanTenureYears := 7;
  omrPerKwYear := 800;
  omrEscalationPct := 3.0;
  discountRatePct := 12.0
|}%float.

(** An upfront percentage above 100: the financed amount is negative. *)
Definition overpaidUpfront : ProjectionConfig float := {|
  capacityKw := 50;
  unitsPerKwDay := 4.2;
  degradationPct := 0.6;
  contractYears := 20;
  ppaTariff := 5.0;
  tariffEscalationPct := 2.0;
  capexPerKw := 42000;
  upfrontPercent := 150;
  loanInterestPct := 11.5;
  loanTenureYears := 7;
  omrPerKwYear := 800;
  omrEscalationPct := 3.0;
  discountRatePct := 12.0
|}%float.

(** A plant of capacity 0: every cash flow is zero. *)
Definition noPlant : ProjectionConfig float := {|
  capacityKw := 0;
  unitsPerKwDay := 4.2;
  degradationPct := 0.6;
  contractYears := 20;
  ppaTariff := 5.0;
  tariffEscalationPct := 2.0;
  capexPerKw := 42000;
  upfrontPercent := 20;
  loanInterestPct := 11.5;
  loanTenureYears := 7;
  omrPerKwYear := 800;
  omrEscalationPct := 3.0;
  discountRatePct := 12.0
|}%float.

(** ** The claims that fail, as the specification words them *)

Section Claims.
Context {num : Type} {AR : Arith num}.
#[local] Open Scope num_scope.

(** [1 <= y <= min(contractYears, loanTenureYears)] *)
Definition inLoanWindow (cfg : ProjectionConfig num) (y : nat) : bool :=
  (1 <=? y)%nat
  && ($(Z.of_nat y) <=? Math_min $(contractYears cfg) (loanTenureYears cfg)).

(** "rows[y].emi != 0 iff 1 <= y <= min(contractYears, loanTenureYears),
    and the non-zero value is constant across that window" *)
Definition loanWindowClaim (cfg : ProjectionConfig num) : Prop :=
  let rows := YearlySummary.rows (buildYearlyProjection cfg) in
  (forall y r, nth_error rows y = Some r ->
     (nonzero (YearRow.emi r) = true <-> inLoanWindow cfg y = true))
  /\ (forall y y' r r',
        nth_error rows y = Some r -> nth_error rows y' = Some r' ->
        inLoanWindow cfg y = true -> inLoanWindow cfg y' = true ->
        YearRow.emi r = YearRow.emi r').

(** "emiAnnual <= 0 and every row's emi <= 0" *)
Definition signConventionClaim (cfg : ProjectionConfig num) : Prop :=
  let s := buildYearlyProjection cfg in
  (YearlySummary.emiAnnual s <=? $0) = true
  /\ Forall (fun r => (YearRow.emi r <=? $0) = true) (YearlySummary.rows s).

(** The IRR computation failed: the rate is not finite, or the 100
    iterations ran out before the step became small. *)
Definition irrFailed (run : IrrRun.t num) : bool :=
  negb (isFinite (IrrRun.rate run)) || negb (IrrRun.broke run).

(** "IRR non-convergence or a non-finite rate is reported as null" *)
Definition irrNullClaim (cfg : ProjectionConfig num) : Prop :=
  let s := buildYearlyProjection cfg in
  let cashflows := map YearRow.net (YearlySummary.rows s) in
  irrFailed (irr_run cashflows irr_guess) = true ->
  YearlySummary.irr s = None.

(** The terms [cashflow[t] / (1+discountRate)^t] of the net present
    value, for the cash flows at periods [t], [t+1], ... *)
Fixpoint discounted (discountRate : num) (t : Z) (cashflows : list num) : list num :=
  match cashflows with
  | [] => []
  | cf :: rest =>
      cf / Math_pow ($1 + discountRate) $t :: discounted discountRate (t + 1)%Z rest
  end.

(** The running total of net cash flow at row [i] reaches [>= 0]. *)
Definition paidBackAt (rows : list (YearRow.t num)) (i : nat) : bool :=
  netUpTo rows i >=? $0.
End Claims.

(*BEGIN-EXTRA-DEFS*)
(** ** The presentation layer: tables, labels and exports *)

(** *** The yearly table of the UI ([rowsYear]) *)

(** A table cell: a Number or a string. *)
Inductive Cell (num : Type) : Type :=
| CellNum (x : num)
| CellText (s : string).
Arguments CellNum {num}. Arguments CellText {num}.

Section Tables.
Context {num : Type} {AR : Arith num}.
#[local] Open Scope num_scope.

(** [Number.prototype.toFixed(2)], the text of a Number with two
    decimals, is left to the platform. *)
Variable toFixed2 : num -> string.

(** The truth value of a Number in a condition: false for [0], [-0]
    and NaN (the only Number that is not [===] to itself). *)
Definition truthy (x : num) : bool := negb (x === $0) && (x === x).

(** [yearly.cumulative.find((c) => c.year === r.year)?.value ?? 0] *)
Definition cumulativeOfYear (yearly : YearlySummary.t num) (y : Z) : num :=
  match find (fun c => (CumPoint.year c =? y)%Z) (YearlySummary.cumulative yearly) with
  | Some c => CumPoint.value c
  | None => $0
  end.

(** [yearly.rows.map((r) => [r.year, r.generationKwh,
      r.tariff ? r.tariff.toFixed(2) : '-', Math.round(r.revenue),
      Math.round(r.omr), Math.round(r.emi), Math.round(r.net),
      Math.round(cum)])] *)
Definition rowsYear (yearly : YearlySummary.t num) : list (list (Cell num)) :=
  map (fun r =>
         let cum := cumulativeOfYear yearly (YearRow.year r) in
         [ CellNum $(YearRow.year r);
           CellNum (YearRow.generationKwh r);
           (if truthy (YearRow.tariff r)
            then CellText (toFixed2 (YearRow.tariff r))
            else CellText "-");
           CellNum (Math_round (YearRow.revenue r));
           CellNum (Math_round (YearRow.omr r));
           CellNum (Math_round (YearRow.emi r));
           CellNum (Math_round (YearRow.net r));
           CellNum (Math_round cum) ])
      (YearlySummary.rows yearly).
End Tables.

(** The "Simple Payback" label:
    [yearly.paybackYear ? `${yearly.paybackYear} yrs` : 'beyond term'].
    Both [null] and the Number 0 are false in the condition. *)
Definition paybackText (paybackYear : option Z) : string :=
  match paybackYear with
  | Some y => if (y =? 0)%Z then "beyond term" else (showZ y ++ " yrs")%string
  | None => "beyond term"
  end.

(** *** CSV export *)

(** A JavaScript string is a sequence of UTF-16 code units. *)
Module Js.
Definition str : Type := list N.
Definition quote : N := 34.
Definition comma : N := 44.
Definition newline : N := 10.
Definition underscore : N := 95.

(** [arr.join(sep)] on an array of strings. *)
Fixpoint join (sep : str) (parts : list str) : str :=
  match parts with
  | [] => []
  | [p] => p
  | p :: rest => p ++ sep ++ join sep rest
  end.

(** The code units matched by [\s]: the WhiteSpace and LineTerminator
    code points of ECMAScript. *)
Definition isWhiteSpace (c : N) : bool :=
  ((9 <=? c) && (c <=? 13)
   || (c =? 32) || (c =? 160) || (c =? 5760)
   || (8192 <=? c) && (c <=? 8202)
   || (c =? 8232) || (c =? 8233) || (c =? 8239) || (c =? 8287)
   || (c =? 12288) || (c =? 65279))%N.
End Js.

Section Csv.
(** The non-null values a cell can hold, and [String(v)]. *)
Variable V : Type.
Variable String_ : V -> Js.str.

(** The test of [s] against the character class of the quote, the
    comma and the newline. *)
Definition hasSpecial (s : Js.str) : bool :=
  existsb (fun c => (c =? Js.quote) || (c =? Js.comma) || (c =? Js.newline))%N s.

(** The global replacement of every quote (code unit 34) in [s] by
    two quotes. *)
Fixpoint doubleQuotes (s : Js.str) : Js.str :=
  match s with
  | [] => []
  | c :: rest =>
      if (c =? Js.quote)%N then Js.quote :: Js.quote :: doubleQuotes rest
      else c :: doubleQuotes rest
  end.

(** [esc]: [None] is a cell that is [null] or [undefined]. *)
Definition esc (v : option V) : Js.str :=
  match v with
  | None => []
  | Some x =>
      let s := String_ x in
      if hasSpecial s then Js.quote :: doubleQuotes s ++ [Js.quote] else s
  end.

(** The text handed to the Blob:
    [[headers.join(',')].concat(dataRows.map((r) => r.map(esc).join(',')))
       .join('\n')] *)
Definition csvText (headers : list Js.str) (dataRows : list (list (option V))) : Js.str :=
  Js.join [Js.newline]
          ([Js.join [Js.comma] headers]
             ++ map (fun r => Js.join [Js.comma] (map esc r)) dataRows).

(** The text a cell stands for. *)
Definition cellText (v : option V) : Js.str :=
  match v with
  | None => []
  | Some x => String_ x
  end.
End Csv.

(** A reader of comma-separated text in the usual convention (RFC
    4180): fields are separated by commas and records by newlines
    outside quotes; inside quotes a doubled quote is a quote. *)
Module CsvReader.
Inductive state : Type :=
| Plain        (* outside quotes *)
| InQuotes     (* inside a quoted field *)
| QuoteSeen.   (* inside quotes, just after a quote *)

(** [field] holds the current field reversed, [record] the finished
    fields of the current record, last first. *)
Fixpoint read (s : Js.str) (q : state) (field : Js.str) (record : list Js.str)
  : list (list Js.str) :=
  match s with
  | [] => [rev (rev field :: record)]
  | c :: rest =>
      match q with
      | InQuotes =>
          if (c =? Js.quote)%N then read rest QuoteSeen field record
          else read rest InQuotes (c :: field) record
      | Plain | QuoteSeen =>
          if (c =? Js.quote)%N then
            match q with
            | QuoteSeen => read rest InQuotes (c :: field) record
            | _ => read rest InQuotes field record
            end
          else if (c =? Js.comma)%N then read rest Plain [] (rev field :: record)
          else if (c =? Js.newline)%N then
            rev (rev field :: record) :: read rest Plain [] []
          else read rest Plain (c :: field) record
      end
  end.

Definition parse (s : Js.str) : list (list Js.str) := read s Plain [] [].
End CsvReader.

(** [encodes e t]: reading the text [e] from the start of a field
    leaves the reader at the end of a field whose content is [t]. *)
Definition encodes (e t : Js.str) : Prop :=
  exists q, (q = CsvReader.Plain \/ q = CsvReader.QuoteSeen)
    /\ forall rest record,
         CsvReader.read (e ++ rest) CsvReader.Plain [] record =
         CsvReader.read rest q (rev t) record.

(** *** The monthly table of the UI ([rowsMonth]) and the exports *)

Section MonthTable.
Context {num : Type} {AR : Arith num}.
#[local] Open Scope num_scope.

Variable toFixed2 : num -> string.

(** [Math.round(undefined)], the last cell of a row whose index has no
    entry in [monthly.cumulative]. *)
Variable roundUndefined : num.

(** [monthly.rows.map((r, idx) => [r.label, r.month, r.generationKwh,
      r.tariff ? r.tariff.toFixed(2) : '-', Math.round(r.revenue),
      Math.round(r.omr), Math.round(r.emi), Math.round(r.net),
      Math.round(monthly.cumulative[idx])])], from index [idx]. *)
Fixpoint rowsMonthFrom (cumulative : list num) (idx : nat) (rows : list (MonthRow.t num))
  : list (list (Cell num)) :=
  match rows with
  | [] => []
  | r :: rest =>
      [ CellText (MonthRow.label r);
        CellText (MonthRow.month r);
        CellNum (MonthRow.generationKwh r);
        (if truthy (MonthRow.tariff r)
         then CellText (toFixed2 (MonthRow.tariff r))
         else CellText "-");
        CellNum (Math_round (MonthRow.revenue r));
        CellNum (Math_round (MonthRow.omr r));
        CellNum (Math_round (MonthRow.emi r));
        CellNum (Math_round (MonthRow.net r));
        CellNum (match nth_error cumulative idx with
                 | Some c => Math_round c
                 | None => roundUndefined
                 end) ]
        :: rowsMonthFrom cumulative (S idx) rest
  end.

Definition rowsMonth (monthly : MonthlySummary.t num) : list (list (Cell num)) :=
  rowsMonthFrom (MonthlySummary.cumulative monthly) 0 (MonthlySummary.rows monthly).

(** The column titles, as the code units of the string literals of
    the source. *)
Definition headersYear : list Js.str :=
  [ [89; 101; 97; 114];
    [71; 101; 110; 101; 114; 97; 116; 105; 111; 110; 32; 40; 107; 87; 104; 41];
    [84; 97; 114; 105; 102; 102; 32; 40; 226; 8218; 185; 47; 107; 87; 104; 41];
    [82; 101; 118; 101; 110; 117; 101; 32; 40; 226; 8218; 185; 41];
    [79; 38; 77; 32; 40; 226; 8218; 185; 41];
    [76; 111; 97; 110; 32; 69; 77; 73; 32; 40; 226; 8218; 185; 41];
    [78; 101; 116; 32; 40; 226; 8218; 185; 41];
    [67; 117; 109; 117; 108; 97; 116; 105; 118; 101; 32; 40; 226; 8218; 185; 41] ]%N.

Definition headersMonth : list Js.str :=
  [ [89; 101; 97; 114];
    [77; 111; 110; 116; 104];
    [71; 101; 110; 101; 114; 97; 116; 105; 111; 110; 32; 40; 107; 87; 104; 41];
    [84; 97; 114; 105; 102; 102; 32; 40; 226; 8218; 185; 47; 107; 87; 104; 41];
    [82; 101; 118; 101; 110; 117; 101; 32; 40; 226; 8218; 185; 41];
    [79; 38; 77; 32; 40; 226; 8218; 185; 41];
    [76; 111; 97; 110; 32; 69; 77; 73; 32; 40; 226; 8218; 185; 41];
    [78; 101; 116; 32; 40; 226; 8218; 185; 41];
    [67; 117; 109; 117; 108; 97; 116; 105; 118; 101; 32; 40; 226; 8218; 185; 41] ]%N.

(** [String(v)] on a table cell. *)
Variable String_ : Cell num -> Js.str.

(** The text of [exportTableToCSV('ppa_yearly.csv', headersYear, rowsYear)]
    and of [exportTableToCSV('ppa_monthly.csv', headersMonth, rowsMonth)];
    no cell of the two tables is null. *)
Definition yearlyCsv (yearly : YearlySummary.t num) : Js.str :=
  csvText (Cell num) String_ headersYear (map (map Some) (rowsYear toFixed2 yearly)).

Definition monthlyCsv (monthly : MonthlySummary.t num) : Js.str :=
  csvText (Cell num) String_ headersMonth (map (map Some) (rowsMonth monthly)).
End MonthTable.

(** *** PDF export *)

(** [title.replace(/\s+/g, '_')]: every maximal run of whitespace
    becomes one underscore; [inRun] tells that the previous code unit
    was whitespace. *)
Fixpoint collapseSpaces (inRun : bool) (s : Js.str) : Js.str :=
  match s with
  | [] => []
  | c :: rest =>
      if Js.isWhiteSpace c then
        if inRun then collapseSpaces true rest
        else Js.underscore :: collapseSpaces true rest
      else c :: collapseSpaces false rest
  end.

(** The name given to [doc.save]: [title.replace(/\s+/g, '_') + '.pdf']. *)
Definition pdfFileName (title : Js.str) : Js.str :=
  collapseSpaces false title ++ [46; 112; 100; 102]%N.

(** *** Degenerate configurations *)

(** The default inputs with a loan tenure of 0 years. *)
Definition withoutTenure : ProjectionConfig float := {|
  capacityKw := 50;
  unitsPerKwDay := 4.2;
  degradationPct := 0.6;
  contractYears := 20;
  ppaTariff := 5.0;
  tariffEscalationPct := 2.0;
  capexPerKw := 42000;
  upfrontPercent := 20;
  loanInterestPct := 11.5;
  loanTenureYears := 0;
  omrPerKwYear := 800;
  omrEscalationPct := 3.0;
  discountRatePct := 12.0
|}%float.

(** The default inputs with a contract of 0 years. *)
Definition withoutYears : ProjectionConfig float := {|
  capacityKw := 50;
  unitsPerKwDay := 4.2;
  degradationPct := 0.6;
  contractYears := 0;
  ppaTariff := 5.0;
  tariffEscalationPct := 2.0;
  capexPerKw := 42000;
  upfrontPercent := 20;
  loanInterestPct := 11.5;
  loanTenureYears := 7;
  omrPerKwYear := 800;
  omrEscalationPct := 3.0;
  discountRatePct := 12.0
|}%float.

(** The default inputs with nothing paid upfront. *)
Definition withoutUpfront : ProjectionConfig float := {|
  capacityKw := 50;
  unitsPerKwDay := 4.2;
  degradationPct := 0.6;
  contractYears := 20;
  ppaTariff := 5.0;
  tariffEscalationPct := 2.0;
  capexPerKw := 42000;
  upfrontPercent := 0;
  loanInterestPct := 11.5;
  loanTenureYears := 7;
  omrPerKwYear := 800;
  omrEscalationPct := 3.0;
  discountRatePct := 12.0
|}%float.

(** ** Exact powers *)

(** [Math.pow] in exact arithmetic, for integral exponents. *)
Definition exact_pow (b y : Qc) : Qc :=
  match Qnum y with
  | Z0 => 1%Qc
  | Zpos p => Qcpower b (Pos.to_nat p)
  | Zneg p => Qcinv (Qcpower b (Pos.to_nat p))
  end.

(** The cash flows of a loan seen from the borrower: the principal
    received at period 0, then [n] equal installments. *)
Definition loanCashflows {num} (pv installment : num) (n : nat) : list num :=
  pv :: repeat installment n.

(*END-EXTRA-DEFS*)
(** ** Signs of binary64 values

    [x >= 0], [x <= 0] and "the sign bit of [x] is [s]" on the
    specification side of a float; NaN satisfies none of them. *)

Definition SFnonneg (f : spec_float) : Prop :=
  match f with
  | S754_zero _ => True
  | S754_infinity s | S754_finite s _ _ => s = false
  | S754_nan => False
  end.

Definition SFnonpos (f : spec_float) : Prop :=
  match f with
  | S754_zero _ => True
  | S754_infinity s | S754_finite s _ _ => s = true
  | S754_nan => False
  end.

Definition SFsigned (s : bool) (f : spec_float) : Prop :=
  match f with
  | S754_zero s' | S754_infinity s' | S754_finite s' _ _ => s' = s
  | S754_nan => False
  end.

(** * Properties *)

Section Generic.
Context {num : Type} {AR : Arith num}.
#[local] Open Scope num_scope.

(** ** Sums *)

Lemma sum_snoc (xs : list num) (x : num) : sum (xs ++ [x]) = sum xs + x.
Proof. unfold sum. rewrite fold_left_app. reflexivity. Qed.

Lemma firstn_snoc_le {A} (l : list A) (x : A) (n : nat) :
    (n <= length l)%nat -> firstn n (l ++ [x]) = firstn n l.
Proof.
    intros Hn. rewrite firstn_app.
    replace (n - length l)%nat with O by lia.
    cbn. apply app_nil_r.
Qed.

(** ** The yearly loop *)

Variable cfg : ProjectionConfig num.

Lemma yearLoop_length n y g t o : length (yearLoop cfg n y g t o) = n.
Proof.
    revert y g t o. induction n as [|n IH]; intros; cbn; [reflexivity|].
    now rewrite IH.
Qed.

Lemma projectionRows_length :
    length (projectionRows cfg) = S (Z.to_nat (contractYears cfg)).
Proof. unfold projectionRows. cbn. now rewrite yearLoop_length. Qed.

Lemma yearLoop_year n y g t o k r :
    nth_error (yearLoop cfg n y g t o) k = Some r ->
    YearRow.year r = (y + Z.of_nat k)%Z.
Proof.
    revert n y g t o. induction k as [|k IH]; intros n y g t o H.
    - destruct n; cbn in H; [discriminate|]. injection H as <-. cbn. lia.
    - destruct n; cbn in H; [discriminate|].
      apply IH in H. rewrite H. lia.
Qed.

Lemma yearLoop_emi n y g t o k r :
    nth_error (yearLoop cfg n y g t o) k = Some r ->
    YearRow.emi r =
      if $(y + Z.of_nat k) <=? loanNper cfg then emiAnnual cfg else $0.
Proof.
    revert n y g t o. induction k as [|k IH]; intros n y g t o H.
    - destruct n; cbn in H; [discriminate|]. injection H as <-. cbn.
      now rewrite Z.add_0_r.
    - destruct n; cbn in H; [discriminate|].
      apply IH in H. rewrite H.
      now replace (y + 1 + Z.of_nat k)%Z with (y + Z.of_nat (S k))%Z by lia.
Qed.

Lemma rows_year y r :
    nth_error (projectionRows cfg) y = Some r -> YearRow.year r = Z.of_nat y.
Proof.
    destruct y as [|y]; cbn; intros H.
    - now injection H as <-.
    - apply yearLoop_year in H. rewrite H. lia.
Qed.
Lemma rows_emi y r :
  nth_error (projectionRows cfg) (S y) = Some r ->
  YearRow.emi r =
    if $(Z.of_nat (S y)) <=? loanNper cfg then emiAnnual cfg else $0.
Proof.
  cbn [projectionRows nth_error]. intros H.
  apply yearLoop_emi in H. rewrite H.
  now replace (1 + Z.of_nat y)%Z with (Z.of_nat (S y)) by lia.
Qed.

(** Every row carries the installment inside the loan window and the
    literal 0 outside of it. *)
Lemma projectionRows_emi y r :
  nth_error (projectionRows cfg) y = Some r ->
  YearRow.emi r =
    if (1 <=? y)%nat && ($(Z.of_nat y) <=? loanNper cfg)
    then emiAnnual cfg else $0.
Proof.
  destruct y as [|y]; intros H.
  - cbn in H. now injection H as <-.
  - apply rows_emi in H. rewrite H. reflexivity.
Qed.

(** Two consecutive rows of the loop: tariff and O&M of the later one
    are those of the earlier one, escalated once. *)
Lemma yearLoop_escalation n y g t o k r r' :
  (1 <= y)%Z ->
  nth_error (yearLoop cfg n y g t o) k = Some r ->
  nth_error (yearLoop cfg n y g t o) (S k) = Some r' ->
  YearRow.tariff r' = YearRow.tariff r * ($1 + tariffEscalationPct cfg / $100)
  /\ YearRow.omr r' = YearRow.omr r * ($1 + omrEscalationPct cfg / $100).
Proof.
  revert n y g t o. induction k as [|k IH]; intros n y g t o Hy H H'.
  - destruct n as [|[|n]]; cbn in H, H'; try discriminate.
    injection H as <-. injection H' as <-. cbn.
    replace (1 <? y + 1)%Z with true by (symmetry; apply Z.ltb_lt; lia).
    split; reflexivity.
  - destruct n as [|n]; [discriminate|].
    cbn [yearLoop nth_error] in H, H'.
    eapply IH; [| exact H | exact H']. lia.
Qed.

(** The loop enters year [y] carrying the generation of year [y - 1]
    and emits the rounded generation of each year. *)
Lemma yearLoop_generation n (y : nat) g t o k r :
  (1 <= y)%nat ->
  g = genOfYear cfg (y - 1) ->
  nth_error (yearLoop cfg n (Z.of_nat y) g t o) k = Some r ->
  YearRow.generationKwh r = Math_round (genOfYear cfg (y + k)).
Proof.
  revert n y g t o. induction k as [|k IH]; intros n y g t o Hy Hg H.
  - destruct n as [|n]; [discriminate|]. cbn in H. injection H as <-. cbn.
    rewrite Nat.add_0_r. subst g.
    destruct y as [|[|y]]; [lia | reflexivity |].
    replace (1 <? Z.of_nat (S (S y)))%Z with true by (symmetry; apply Z.ltb_lt; lia).
    replace (S (S y) - 1)%nat with (S y) by lia. reflexivity.
  - destruct n as [|n]; [discriminate|].
    cbn [yearLoop nth_error] in H.
    replace (Z.of_nat y + 1)%Z with (Z.of_nat (S y)) in H by lia.
    replace (y + S k)%nat with (S y + k)%nat by lia.
    eapply IH; [| | exact H]; [lia|].
    subst g. replace (S y - 1)%nat with y by lia.
    destruct y as [|[|y]]; [lia | reflexivity |].
    replace (1 <? Z.of_nat (S (S y)))%Z with true by (symmetry; apply Z.ltb_lt; lia).
    replace (S (S y) - 1)%nat with (S y) by lia. reflexivity.
Qed.

(** ** Running totals *)

Lemma cumulative_snoc (l : list (YearRow.t num)) (x : YearRow.t num) :
  fold_left cumulativeStep (l ++ [x]) [] =
  cumulativeStep (fold_left cumulativeStep l []) x.
Proof. now rewrite fold_left_app. Qed.

Lemma netUpTo_snoc_lt (l : list (YearRow.t num)) x i :
  (i < length l)%nat -> netUpTo (l ++ [x]) i = netUpTo l i.
Proof. intros Hi. unfold netUpTo. now rewrite firstn_snoc_le by lia. Qed.

Lemma netUpTo_last (l : list (YearRow.t num)) x :
  netUpTo (l ++ [x]) (length l) = sum (map YearRow.net l) + YearRow.net x.
Proof.
  unfold netUpTo. rewrite firstn_all2 by (rewrite length_app; cbn; lia).
  rewrite map_app. cbn [map]. apply sum_snoc.
Qed.

Lemma cumulative_prev (acc : list (CumPoint.t num)) (l : list (YearRow.t num)) :
  length acc = length l ->
  (forall i r, nth_error l i = Some r ->
     nth_error acc i = Some (CumPoint.mk (YearRow.year r) (netUpTo l i))) ->
  match acc with
  | [] => $0
  | c :: _ => CumPoint.value (last acc c)
  end = sum (map YearRow.net l).
Proof.
  intros Hlen H. destruct acc as [|c acc'].
  - destruct l; [reflexivity | discriminate].
  - destruct (exists_last (l := c :: acc')) as [pre [z Hz]]; [discriminate|].
    rewrite Hz in *. rewrite last_last.
    destruct (exists_last (l := l)) as [l' [y Hy]].
    { intros ->. rewrite length_app in Hlen. cbn in Hlen. lia. }
    subst l. rewrite !length_app in Hlen. cbn in Hlen.
    specialize (H (length l') y).
    rewrite nth_error_app2, Nat.sub_diag in H by lia.
    specialize (H eq_refl).
    rewrite nth_error_app2 in H by lia.
    replace (length l' - length pre)%nat with O in H by lia.
    cbn [nth_error] in H. injection H as ->. cbn [CumPoint.value].
    rewrite netUpTo_last, map_app. cbn [map]. now rewrite sum_snoc.
Qed.

(** The reduce that builds [cumulative] yields, row for row, the year of
    the row and the sum of the net cash flows up to it. *)
Lemma cumulative_spec (l : list (YearRow.t num)) :
  length (fold_left cumulativeStep l []) = length l
  /\ forall i r, nth_error l i = Some r ->
       nth_error (fold_left cumulativeStep l []) i =
       Some (CumPoint.mk (YearRow.year r) (netUpTo l i)).
Proof.
  induction l as [|x l [IHlen IH]] using rev_ind.
  - split; [reflexivity|]. intros [|i] r H; discriminate.
  - rewrite cumulative_snoc. unfold cumulativeStep at 1 3.
    pose proof (cumulative_prev _ _ IHlen IH) as Hprev.
    remember (fold_left cumulativeStep l []) as acc eqn:Eacc.
    split.
    + rewrite !length_app, IHlen. reflexivity.
    + intros i r H.
      destruct (Nat.lt_ge_cases i (length l)) as [Hi | Hi].
      * rewrite nth_error_app1 in H by lia.
        rewrite nth_error_app1 by lia.
        rewrite netUpTo_snoc_lt by lia. now apply IH.
      * assert (i = length l) as ->.
        { assert (Hlt : (i < length (l ++ [x]))%nat)
            by (apply nth_error_Some; congruence).
          rewrite length_app in Hlt. cbn in Hlt. lia. }
        rewrite nth_error_app2 in H by lia.
        rewrite Nat.sub_diag in H. cbn in H. injection H as <-.
        rewrite nth_error_app2 by lia. rewrite IHlen, Nat.sub_diag.
        cbn [nth_error]. rewrite netUpTo_last. do 3 f_equal. exact Hprev.
Qed.
Lemma runningNet_length c (rows : list (MonthRow.t num)) :
  length (runningNet c rows) = length rows.
Proof.
  revert c. induction rows as [|r rows IH]; intros c; cbn; [reflexivity|].
  now rewrite IH.
Qed.

Lemma runningNet_nth c (rows : list (MonthRow.t num)) i :
  (i < length rows)%nat ->
  nth_error (runningNet c rows) i =
  Some (fold_left nadd (map MonthRow.net (firstn (S i) rows)) c).
Proof.
  revert c i. induction rows as [|r rows IH]; intros c i Hi; cbn in Hi; [lia|].
  destruct i as [|i]; cbn [runningNet nth_error].
  - cbn. now rewrite ?firstn_0.
  - rewrite IH by lia. reflexivity.
Qed.

(** ** The monthly loop *)

Lemma monthLoop_length y (yrs : list (YearRow.t num)) :
  length (monthLoop y yrs) = (12 * length yrs)%nat.
Proof.
  revert y. induction yrs as [|yr yrs IH]; intros y; [reflexivity|].
  cbn [monthLoop]. rewrite length_app, length_map, length_seq, IH. cbn [length]. lia.
Qed.

(** The block of twelve rows that the loop emits for the [k]-th yearly
    row it visits. *)
Lemma monthLoop_block y (yrs : list (YearRow.t num)) k yr :
  nth_error yrs k = Some yr ->
  firstn 12 (skipn (12 * k) (monthLoop y yrs)) =
  map (monthRow (y + Z.of_nat k) yr) (seq 0 12).
Proof.
  revert y k. induction yrs as [|yr0 yrs IH]; intros y k H.
  - destruct k; discriminate.
  - cbn [monthLoop]. destruct k as [|k].
    + cbn [nth_error] in H. injection H as ->.
      rewrite Z.add_0_r, Nat.mul_0_r. cbn [skipn].
      rewrite firstn_app, length_map, length_seq.
      rewrite Nat.sub_diag, firstn_0, app_nil_r. apply firstn_all2.
      rewrite length_map, length_seq. lia.
    + cbn [nth_error] in H.
      rewrite skipn_app, length_map, length_seq.
      rewrite skipn_all2 by (rewrite length_map, length_seq; lia).
      replace (12 * S k - 12)%nat with (12 * k)%nat by lia.
      cbn [app]. rewrite (IH (y + 1)%Z k H).
      now replace (y + 1 + Z.of_nat k)%Z with (y + Z.of_nat (S k))%Z by lia.
Qed.

(** ** The payback loop *)

Lemma paybackFrom_spec (rows : list (YearRow.t num)) i cum :
  match paybackFrom i cum rows with
  | Some j =>
      exists k, j = (i + Z.of_nat k)%Z /\ (k < length rows)%nat
        /\ (fold_left nadd (map YearRow.net (firstn (S k) rows)) cum >=? $0) = true
        /\ forall k', (k' < k)%nat ->
             (fold_left nadd (map YearRow.net (firstn (S k') rows)) cum >=? $0) = false
  | None =>
      forall k, (k < length rows)%nat ->
        (fold_left nadd (map YearRow.net (firstn (S k) rows)) cum >=? $0) = false
  end.
Proof.
  revert i cum. induction rows as [|r rows IH]; intros i cum.
  - cbn. intros k Hk. lia.
  - cbn [paybackFrom].
    destruct (cum + YearRow.net r >=? $0) eqn:E.
    + exists O. repeat split; [lia | cbn; lia | | intros; lia].
      cbn. rewrite ?firstn_0. exact E.
    + specialize (IH (i + 1)%Z (cum + YearRow.net r)).
      destruct (paybackFrom (i + 1) (cum + YearRow.net r) rows) as [j|].
      * destruct IH as (k & -> & Hk & Hge & Hlt).
        exists (S k). repeat split; [lia | cbn; lia | exact Hge |].
        intros [|k'] Hk'; [cbn; rewrite ?firstn_0; exact E | apply Hlt; lia].
      * intros [|k] Hk; [cbn; rewrite ?firstn_0; exact E | apply IH; cbn in Hk; lia].
Qed.

(** ** The Newton-Raphson loop *)

Lemma irr_loop_iterations budget (cashflows : list num) rate :
  (IrrRun.iterations (irr_loop budget cashflows rate) <= budget)%nat.
Proof.
  revert rate. induction budget as [|b IH]; intros rate; cbn [irr_loop].
  - cbn. lia.
  - destruct (irr_pass rate 0 cashflows $0 $0) as [f df].
    destruct (negb (isFinite (rate - f / df))
              || (Math_abs (f / df) <? dec 1 100000000)).
    + cbn. lia.
    + cbn. specialize (IH (rate - f / df)). lia.
Qed.

(** The loop stops short of its budget only through [break]. *)
Lemma irr_loop_broke budget (cashflows : list num) rate :
  (IrrRun.iterations (irr_loop budget cashflows rate) < budget)%nat ->
  IrrRun.broke (irr_loop budget cashflows rate) = true.
Proof.
  revert rate. induction budget as [|b IH]; intros rate; cbn [irr_loop].
  - cbn. lia.
  - destruct (irr_pass rate 0 cashflows $0 $0) as [f df].
    destruct (negb (isFinite (rate - f / df))
              || (Math_abs (f / df) <? dec 1 100000000)).
    + reflexivity.
    + cbn. intros H. apply IH. lia.
Qed.

(** A run that did not leave through [break] used all 100 iterations. *)
Lemma irr_run_exhausted (cashflows : list num) guess :
  IrrRun.broke (irr_run cashflows guess) = false ->
  IrrRun.iterations (irr_run cashflows guess) = 100%nat.
Proof.
  unfold irr_run.
  pose proof (irr_loop_iterations 100 cashflows guess) as Hle.
  pose proof (irr_loop_broke 100 cashflows guess) as Hbr.
  remember (irr_loop 100 cashflows guess) as run eqn:Erun. clear Erun.
  intros Hb.
  destruct (Nat.eq_dec (IrrRun.iterations run) 100) as [E|E]; [exact E|].
  rewrite Hbr in Hb by lia. discriminate Hb.
Qed.

(** ** Net present value *)

Lemma npv_from_discounted r (cashflows : list num) i acc :
  reduce_from (fun a cf t => a + cf / Math_pow ($1 + r) $t) i cashflows acc =
  fold_left nadd (discounted r i cashflows) acc.
Proof.
  revert i acc. induction cashflows as [|cf rest IH]; intros i acc; cbn.
  - reflexivity.
  - apply IH.
Qed.

Lemma discounted_nth r i (cashflows : list num) t cf :
  nth_error cashflows t = Some cf ->
  nth_error (discounted r i cashflows) t =
  Some (cf / Math_pow ($1 + r) $(i + Z.of_nat t)).
Proof.
  revert i t. induction cashflows as [|c rest IH]; intros i t H.
  - destruct t; discriminate.
  - destruct t as [|t]; cbn in H |- *.
    + injection H as ->. now rewrite Z.add_0_r.
    + rewrite (IH _ _ H).
      now replace (i + 1 + Z.of_nat t)%Z with (i + Z.pos (Pos.of_succ_nat t))%Z by lia.
Qed.
End Generic.

Lemma monthsOfYear_block {num : Type} {AR : Arith num}
      (s : YearlySummary.t num) (m : MonthlySummary.t num)
      (y : nat) (yr : YearRow.t num) :
  buildMonthlyProjection s = Normal m ->
  (1 <= y)%nat ->
  nth_error (YearlySummary.rows s) y = Some yr ->
  monthsOfYear m y = map (monthRow (Z.of_nat y) yr) (seq 0 12).
Proof.
  unfold buildMonthlyProjection.
  destruct (YearlySummary.rows s) as [|r0 yrs]; [discriminate|].
  intros Hm Hy H. injection Hm as <-.
  unfold monthsOfYear. cbn [MonthlySummary.rows].
  destruct y as [|y]; [lia|]. cbn [nth_error] in H.
  replace (1 + 12 * (S y - 1))%nat with (S (12 * y)) by lia.
  cbn [skipn]. rewrite (monthLoop_block 1%Z yrs y yr H).
  now replace (1 + Z.of_nat y)%Z with (Z.of_nat (S y)) by lia.
Qed.

(** ** Binary64 facts *)

Lemma SF_one : Prim2SF 1%float = S754_finite false 4503599627370496 (-52).
Proof. vm_compute. reflexivity. Qed.

(** Dividing a finite binary64 value by 1 is exact. *)
Lemma SFdiv_one_finite s m e :
  bounded prec emax m e = true ->
  SFdiv prec emax (S754_finite s m e) (S754_finite false 4503599627370496 (-52))
  = S754_finite s m e.
Proof.
  intros Hb. unfold bounded, canonical_mantissa in Hb.
  apply andb_prop in Hb. destruct Hb as [Hc He].
  apply Z.eqb_eq in Hc. apply Z.leb_le in He.
  unfold fexp, SpecFloat.emin, prec, emax in Hc, He.
  unfold SFdiv, SFdiv_core_binary.
  change (Zdigits2 (Z.pos m)) with (Z.pos (digits2_pos m)).
  change (Zdigits2 4503599627370496) with 53.
  set (d1 := Z.pos (digits2_pos m)) in *.
  unfold fexp, SpecFloat.emin, prec, emax.
  assert (Hs : xorb s false = s) by (destruct s; reflexivity). rewrite Hs.
  destruct (Z.eq_dec e (-1074)) as [Hsub | Hnorm].
  - (* lowest binade: the quotient is [m] at exponent [e] *)
    replace (Z.min (Z.max (d1 + e - (53 + -52) - 53) (3 - 1024 - 53)) (e - -52))
      with e by lia.
    replace (e - -52 - e) with 52 by lia.
    assert (Hq : Z.div_eucl (Z.shiftl (Z.pos m) 52) 4503599627370496 = (Z.pos m, 0)).
    { rewrite Z.shiftl_mul_pow2 by lia.
      change (2 ^ 52) with 4503599627370496.
      pose proof (Z_div_mod_full (Z.pos m * 4503599627370496) 4503599627370496
                                 ltac:(lia)) as H.
      destruct (Z.div_eucl (Z.pos m * 4503599627370496) 4503599627370496) as [q r].
      destruct H as [H1 [H2|H2]]; try lia.
      f_equal; nia. }
    rewrite Hq.
    unfold new_location. cbn [Z.even Z.eqb new_location_even].
    unfold binary_round_aux, shr_fexp.
    change (Zdigits2 (Z.pos m)) with d1.
    unfold fexp, SpecFloat.emin, prec, emax.
    replace (Z.max (d1 + e - 53) (3 - 1024 - 53) - e) with 0 by lia.
    cbn [shr shr_record_of_loc shr_m loc_of_shr_record round_nearest_even].
    change (Zdigits2 (Z.pos m)) with d1.
    replace (Z.max (d1 + e - 53) (3 - 1024 - 53) - e) with 0 by lia.
    cbn [shr shr_record_of_loc shr_m].
    replace (e <=? 1024 - 53) with true by (symmetry; apply Z.leb_le; lia).
    reflexivity.
  - (* the quotient is [2m] one exponent lower, shifted back exactly *)
    replace (Z.min (Z.max (d1 + e - (53 + -52) - 53) (3 - 1024 - 53)) (e - -52))
      with (e - 1) by lia.
    replace (e - -52 - (e - 1)) with 53 by lia.
    assert (Hq : Z.div_eucl (Z.shiftl (Z.pos m) 53) 4503599627370496 = (Z.pos m~0, 0)).
    { rewrite Z.shiftl_mul_pow2 by lia.
      change (2 ^ 53) with 9007199254740992.
      pose proof (Z_div_mod_full (Z.pos m * 9007199254740992) 4503599627370496
                                 ltac:(lia)) as H.
      destruct (Z.div_eucl (Z.pos m * 9007199254740992) 4503599627370496) as [q r].
      destruct H as [H1 [H2|H2]]; try lia.
      f_equal; lia. }
    rewrite Hq.
    unfold new_location. cbn [Z.even Z.eqb new_location_even].
    unfold binary_round_aux, shr_fexp.
    change (Zdigits2 (Z.pos m~0)) with (Z.pos (Pos.succ (digits2_pos m))).
    rewrite Pos2Z.inj_succ. fold d1.
    unfold fexp, SpecFloat.emin, prec, emax.
    replace (Z.max (Z.succ d1 + (e - 1) - 53) (3 - 1024 - 53) - (e - 1)) with 1 by lia.
    cbn [shr shr_record_of_loc shr_m loc_of_shr_record round_nearest_even
             iter_pos shr_1 orb].
    change (Zdigits2 (Z.pos m)) with d1.
    replace (e - 1 + 1) with e by lia.
    replace (Z.max (d1 + e - 53) (3 - 1024 - 53) - e) with 0 by lia.
    cbn [shr shr_record_of_loc shr_m].
    replace (e <=? 1024 - 53) with true by (symmetry; apply Z.leb_le; lia).
    reflexivity.
Qed.

(** [x / 1 = x] for every Number, NaN, infinities and zeros included. *)
Lemma f64_div_one (x : float) : (x / 1)%float = x.
Proof.
  apply Prim2SF_inj. rewrite div_spec, SF_one.
  pose proof (Prim2SF_valid x) as Hv.
  destruct (Prim2SF x) as [s | s | | s m e]; try reflexivity.
  - cbn. destruct s; reflexivity.
  - cbn. destruct s; reflexivity.
  - apply SFdiv_one_finite. exact Hv.
Qed.

(** At rate 0, under a [Math.pow] with [pow(1, t) = 1] at the indices in
    use, every discounted term is the cash flow itself. *)
Lemma discounted_rate_zero pow (cashflows : list float) (i : Z) :
  (forall t, (i <= t < i + Z.of_nat (length cashflows))%Z ->
             pow 1%float (F64.of_Z t) = 1%float) ->
  discounted (AR := f64 pow) 0%float i cashflows = cashflows.
Proof.
  revert i. induction cashflows as [|cf rest IH]; intros i Hpow; [reflexivity|].
  cbn [discounted]. f_equal.
  - cbn [ndiv nadd num_of_Z Math_pow f64].
    change (F64.of_Z 1 + 0)%float with 1%float.
    rewrite Hpow by (cbn [length]; lia). apply f64_div_one.
  - apply IH. intros t Ht. apply Hpow. cbn [length]. lia.
Qed.

(** The decimal literals of the source, [0.15] and [1e-8], as binary64. *)
Lemma f64_literals pow :
  irr_guess (AR := f64 pow) = 0.15%float
  /\ dec (H := f64 pow) 1 100000000 = 1e-8%float.
Proof. split; vm_compute; reflexivity. Qed.

(** ** Signs through binary64 multiplication and division *)

(** Case analysis on the specification value of a float, closing the
    cases that computation decides. *)
Ltac sf_cases x :=
  destruct (Prim2SF x) as [?|[]| |[] ? ?]; cbn; intros;
  try discriminate; try contradiction; auto.

Lemma iter_pos_invariant {A} (P : A -> Prop) (f : A -> A) :
  (forall a, P a -> P (f a)) -> forall p a, P a -> P (iter_pos f p a).
Proof.
  intros Hf. induction p as [p IH | p IH |]; intros a Ha; cbn; auto.
Qed.

Lemma shr_1_nonneg mrs : 0 <= shr_m mrs -> 0 <= shr_m (shr_1 mrs).
Proof.
  destruct mrs as [m r s]. cbn. destruct m as [|[p|p|]|[p|p|]]; cbn; lia.
Qed.

Lemma shr_nonneg mrs e n : 0 <= shr_m mrs -> 0 <= shr_m (fst (shr mrs e n)).
Proof.
  intros H. destruct n; cbn; auto.
  apply (iter_pos_invariant (fun x => 0 <= shr_m x)); auto using shr_1_nonneg.
Qed.

Lemma shr_fexp_nonneg m e l :
  0 <= m -> 0 <= shr_m (fst (shr_fexp prec emax m e l)).
Proof.
  intros H. unfold shr_fexp. apply shr_nonneg.
  destruct l as [|[]]; exact H.
Qed.

Lemma round_nearest_even_nonneg m l : 0 <= m -> 0 <= round_nearest_even m l.
Proof.
  intros H. destruct l as [|[]]; cbn; try lia.
  destruct (Z.even m); lia.
Qed.

(** Rounding keeps the sign it is given: the result is a zero, a finite
    value or an infinity of that sign. *)
Lemma binary_round_aux_signed s m e l :
  0 <= m -> SFsigned s (binary_round_aux prec emax s m e l).
Proof.
  intros H. unfold binary_round_aux.
  pose proof (shr_fexp_nonneg m e l H) as H1.
  destruct (shr_fexp prec emax m e l) as [mrs' e'].
  cbn [fst] in H1.
  pose proof (shr_fexp_nonneg _ e' loc_Exact
                (round_nearest_even_nonneg _ (loc_of_shr_record mrs') H1)) as H2.
  destruct (shr_fexp prec emax
              (round_nearest_even (shr_m mrs') (loc_of_shr_record mrs')) e' loc_Exact)
    as [mrs'' e''].
  cbn [fst] in H2.
  destruct (shr_m mrs'') as [|p|p]; [reflexivity | | lia].
  destruct (e'' <=? emax - prec); reflexivity.
Qed.

Lemma SFsigned_nonneg f : SFsigned false f -> SFnonneg f.
Proof. destruct f; cbn; auto. Qed.

Lemma SFsigned_nonpos f : SFsigned true f -> SFnonpos f.
Proof. destruct f; cbn; auto. Qed.

Lemma SFdiv_core_nonneg mx ex my ey :
  0 <= fst (fst (SFdiv_core_binary prec emax (Z.pos mx) ex (Z.pos my) ey)).
Proof.
  unfold SFdiv_core_binary.
  set (s := _ - _ - _).
  set (m' := match s with Z.pos _ => _ | 0 => _ | Z.neg _ => _ end).
  assert (Hm : 0 <= m').
  { unfold m'. destruct s; try lia. apply Z.shiftl_nonneg. lia. }
  pose proof (Z_div_mod_full m' (Z.pos my) ltac:(lia)) as H.
  destruct (Z.div_eucl m' (Z.pos my)) as [q r]. cbn [fst].
  destruct H as [H1 [H2|H2]]; try lia. nia.
Qed.

(** The quotient of two finite values has the sign that is asked for. *)
Lemma SFdiv_finite_signed sx mx ex sy my ey :
  SFsigned (xorb sx sy)
           (SFdiv prec emax (S754_finite sx mx ex) (S754_finite sy my ey)).
Proof.
  cbn [SFdiv].
  pose proof (SFdiv_core_nonneg mx ex my ey) as Hq.
  destruct (SFdiv_core_binary prec emax (Z.pos mx) ex (Z.pos my) ey) as [[mz ez] lz].
  cbn [fst] in Hq. now apply binary_round_aux_signed.
Qed.

(** The product of two finite values [>= 0] is [>= 0]. *)
Lemma SFmul_nonneg x y :
  SFnonneg x -> SFnonneg y ->
  (forall s, x <> S754_infinity s) -> (forall s, y <> S754_infinity s) ->
  SFnonneg (SFmul prec emax x y).
Proof.
  intros Hx Hy Fx Fy.
  destruct x as [sx|sx| |sx mx ex]; destruct y as [sy|sy| |sy my ey];
    cbn in *; try contradiction; try exact I;
    try (exfalso; eapply Fx; reflexivity); try (exfalso; eapply Fy; reflexivity).
  subst. apply SFsigned_nonneg.
  apply (binary_round_aux_signed false). lia.
Qed.

Lemma SFopp_nonpos x : SFnonneg x -> SFnonpos (SFopp x).
Proof. destruct x; cbn; intros H; subst; auto. Qed.

(** A dividend [<= 0] over a positive finite divisor. *)
Lemma SFdiv_nonpos x my ey :
  SFnonpos x -> SFnonpos (SFdiv prec emax x (S754_finite false my ey)).
Proof.
  intros Hx. destruct x as [sx|sx| |sx mx ex]; cbn [SFnonpos] in Hx;
    try contradiction; try exact I.
  - subst. reflexivity.
  - subst. apply SFsigned_nonpos. apply (SFdiv_finite_signed true mx ex false).
Qed.

(** A finite dividend [>= 0] over a positive divisor. *)
Lemma SFdiv_nonneg x y :
  SFnonneg x -> (forall s, x <> S754_infinity s) ->
  SFsigned false y -> (forall s, y <> S754_zero s) ->
  SFnonneg (SFdiv prec emax x y).
Proof.
  intros Hx Fx Hy Zy.
  destruct x as [sx|sx| |sx mx ex]; destruct y as [sy|sy| |sy my ey];
    cbn [SFnonneg SFsigned] in Hx, Hy; try contradiction; try exact I;
    try (exfalso; eapply Fx; reflexivity); try (exfalso; eapply Zy; reflexivity).
  subst. apply SFsigned_nonneg. apply (SFdiv_finite_signed false mx ex false).
Qed.

Lemma SF_zero : Prim2SF 0%float = S754_zero false.
Proof. vm_compute. reflexivity. Qed.

Lemma leb_zero_nonneg (x : float) : (0 <=? x)%float = true -> SFnonneg (Prim2SF x).
Proof. rewrite leb_spec, SF_zero. unfold SFleb. sf_cases x. Qed.

Lemma nonpos_leb_zero (x : float) : SFnonpos (Prim2SF x) -> (x <=? 0)%float = true.
Proof. rewrite leb_spec, SF_zero. unfold SFleb. sf_cases x. Qed.

Lemma ltb_zero_pos (x : float) :
  (0 <? x)%float = true ->
  SFsigned false (Prim2SF x) /\ forall s, Prim2SF x <> S754_zero s.
Proof.
  rewrite ltb_spec, SF_zero. unfold SFltb. sf_cases x; split; auto; discriminate.
Qed.

Lemma leb_one_not_inf (x : float) :
  (x <=? 1)%float = true -> Prim2SF x <> S754_infinity false.
Proof.
  rewrite leb_spec. change (Prim2SF 1) with (S754_finite false 4503599627370496 (-52)).
  unfold SFleb. intros H E. rewrite E in H. cbn in H. discriminate.
Qed.

Lemma is_finite_not_inf (x : float) :
  is_finite x = true -> forall s, Prim2SF x <> S754_infinity s.
Proof.
  unfold is_finite, is_infinity. rewrite eqb_spec, abs_spec.
  intros H s E. rewrite E in H. cbn in H.
  rewrite orb_true_r in H. discriminate.
Qed.

Create HintDb f64sign discriminated.
#[local] Hint Resolve leb_zero_nonneg is_finite_not_inf SFopp_nonpos
  SFmul_nonneg SFdiv_nonneg SFdiv_nonpos : f64sign.

(** ** Integers as binary64 values *)

Lemma digits2_pos_size p : digits2_pos p = Pos.size p.
Proof. induction p as [p IH|p IH|]; cbn; now rewrite ?IH. Qed.

Lemma digits2_pos_iter_xO p k :
  digits2_pos (Pos.iter xO p k) = (digits2_pos p + k)%positive.
Proof.
  induction k as [|k IH] using Pos.peano_ind.
  - cbn. lia.
  - rewrite Pos.iter_succ. cbn [digits2_pos]. rewrite IH. lia.
Qed.

Lemma digits2_pos_bound p :
  (Z.pos p < 2 ^ 53)%Z -> (Z.pos (digits2_pos p) <= 53)%Z.
Proof.
  intros Hp. rewrite digits2_pos_size.
  pose proof (Pos.size_le p) as Hle.
  destruct (Z.le_gt_cases (Z.pos (Pos.size p)) 53) as [H|H]; [exact H|exfalso].
  assert (H54 : (2 ^ 54 <= 2 ^ Z.pos (Pos.size p))%Z)
    by (apply Z.pow_le_mono_r; lia).
  assert (Hz : (2 ^ Z.pos (Pos.size p) <= Z.pos p~0)%Z).
  { rewrite <- Pos2Z.inj_pow. apply Pos2Z.pos_le_pos. exact Hle. }
  change (2 ^ 54)%Z with 18014398509481984%Z in H54.
  change (2 ^ 53)%Z with 9007199254740992%Z in Hp. lia.
Qed.

(** A 53-digit mantissa within the exponent range needs no rounding. *)
Lemma binary_round_aux_exact s mz ez :
  Z.pos (digits2_pos mz) = 53%Z ->
  (-1074 <= ez <= 971)%Z ->
  binary_round_aux prec emax s (Z.pos mz) ez loc_Exact = S754_finite s mz ez
  /\ bounded prec emax mz ez = true.
Proof.
  intros Hdig He.
  assert (Hf : (fexp prec emax (53 + ez) - ez = 0)%Z).
  { unfold fexp, SpecFloat.emin, prec, emax. lia. }
  split.
  - unfold binary_round_aux, shr_fexp.
    change (Zdigits2 (Z.pos mz)) with (Z.pos (digits2_pos mz)).
    rewrite Hdig, Hf.
    cbn [shr shr_record_of_loc shr_m loc_of_shr_record round_nearest_even].
    change (Zdigits2 (Z.pos mz)) with (Z.pos (digits2_pos mz)).
    rewrite Hdig, Hf.
    cbn [shr shr_record_of_loc shr_m].
    replace (ez <=? emax - prec)%Z with true
      by (symmetry; apply Z.leb_le; unfold emax, prec; lia).
    reflexivity.
  - unfold bounded, canonical_mantissa. rewrite Hdig.
    apply andb_true_intro. split.
    + apply Z.eqb_eq. lia.
    + apply Z.leb_le. unfold emax, prec. lia.
Qed.

(** Integers below 2^53 are binary64 values: their conversion is a
    positive finite float. *)
Lemma SF_of_pos p :
  (Z.pos p < 2 ^ 53)%Z ->
  exists m e, Prim2SF (F64.of_Z (Z.pos p)) = S754_finite false m e.
Proof.
  intros Hp. apply digits2_pos_bound in Hp.
  unfold F64.of_Z. cbn [binary_normalize]. unfold binary_round.
  set (d := digits2_pos p) in *.
  assert (Hfexp : fexp prec emax (Z.pos d + 0) = (Z.pos d - 53)%Z).
  { unfold fexp, SpecFloat.emin, prec, emax. lia. }
  rewrite Hfexp. unfold shl_align.
  destruct (Z.pos d - 53 - 0)%Z as [|q|q] eqn:Eq; try lia.
  - destruct (binary_round_aux_exact false p 0) as [Hr Hb]; [fold d; lia | lia |].
    exists p, 0%Z. rewrite Hr. now apply Prim2SF_SF2Prim.
  - destruct (binary_round_aux_exact false (Pos.iter xO p q) (Z.pos d - 53)) as [Hr Hb].
    + rewrite digits2_pos_iter_xO. fold d. lia.
    + lia.
    + exists (Pos.iter xO p q), (Z.pos d - 53)%Z. rewrite Hr.
      now apply Prim2SF_SF2Prim.
Qed.

Lemma SF_nan : Prim2SF nan = S754_nan.
Proof. vm_compute. reflexivity. Qed.

Lemma SFcompare_refl x : x <> S754_nan -> SFcompare x x = Some Eq.
Proof.
  destruct x as [s|[]| |[] m e]; cbn; intros H; try reflexivity; try congruence.
  - now rewrite Z.compare_refl, Pos.compare_cont_refl.
  - now rewrite Z.compare_refl, Pos.compare_cont_refl.
Qed.

Lemma is_nan_spec (x : float) : is_nan x = true <-> Prim2SF x = S754_nan.
Proof.
  unfold is_nan. rewrite eqb_spec. unfold SFeqb. split.
  - intros H. destruct (Prim2SF x) eqn:E; try reflexivity;
      rewrite SFcompare_refl in H by discriminate; discriminate.
  - intros ->. reflexivity.
Qed.

(** For a year [y >= 1] below 2^53, [y <= max(0, m)] and [y <= m] are
    the same test. *)
Lemma leb_max_zero (y : positive) (m : float) :
  (Z.pos y < 2 ^ 53)%Z ->
  (F64.of_Z (Z.pos y) <=? F64.max 0 m)%float = (F64.of_Z (Z.pos y) <=? m)%float.
Proof.
  intros Hy. destruct (SF_of_pos y Hy) as (my & ey & HY).
  unfold F64.max.
  change (is_nan 0) with false. change (get_sign 0) with false. cbn [orb].
  destruct (is_nan m) eqn:En.
  - apply is_nan_spec in En. rewrite !leb_spec, En, SF_nan.
    destruct (Prim2SF (F64.of_Z (Z.pos y))); reflexivity.
  - destruct (0 <? m)%float eqn:Epos; [reflexivity|].
    assert (Hm : (F64.of_Z (Z.pos y) <=? m)%float = false).
    { rewrite ltb_spec, SF_zero in Epos. rewrite leb_spec, HY.
      unfold SFltb in Epos. unfold SFleb.
      destruct (Prim2SF m) as [s|[]| |[] mm em]; cbn in Epos |- *;
        try reflexivity; discriminate. }
    assert (H0 : (F64.of_Z (Z.pos y) <=? 0)%float = false).
    { rewrite leb_spec, HY, SF_zero. reflexivity. }
    rewrite Hm. destruct (m <? 0)%float; exact H0.
Qed.

(** [pmt] is [<= 0] for a finite principal and rate that are [>= 0], a
    positive number of periods and, at a non-zero rate, an annuity
    denominator in (0, 1]. *)
Lemma pmt_nonpos pow (rate nper pv : float) :
  (0 <=? pv)%float = true -> is_finite pv = true ->
  (0 <=? rate)%float = true -> is_finite rate = true ->
  (0 <? nper)%float = true ->
  ((rate =? 0)%float = false ->
   (0 <? 1 - pow (1 + rate) (- nper))%float = true
   /\ (1 - pow (1 + rate) (- nper) <=? 1)%float = true) ->
  (pmt (AR := f64 pow) rate nper pv <=? 0)%float = true.
Proof.
  intros Hpv Fpv Hr Fr Hn Hd.
  unfold pmt. cbn [neqb nopp ndiv nmul nsub nadd num_of_Z Math_pow f64].
  change (F64.of_Z 0) with 0%float. change (F64.of_Z 1) with 1%float.
  destruct (rate =? 0)%float eqn:E; apply nonpos_leb_zero.
  - (* zero interest: -(pv / nper) *)
    apply ltb_zero_pos in Hn. destruct Hn as [Hs Hz].
    rewrite opp_spec, div_spec. auto with f64sign.
  - (* -(pv * r) / (1 - pow(1 + r, -nper)) *)
    destruct (Hd eq_refl) as [Hd0 Hd1].
    apply ltb_zero_pos in Hd0. destruct Hd0 as [Hs Hz].
    apply leb_one_not_inf in Hd1.
    rewrite div_spec, opp_spec, mul_spec.
    destruct (Prim2SF (1 - pow (1 + rate) (- nper))%float) as [s|s| |s my ey];
      cbn in Hs; try contradiction.
    + exfalso. now apply (Hz s).
    + subst s. now elim Hd1.
    + subst s. auto 6 with f64sign.
Qed.

(** ** Exact arithmetic *)

(** Twelve twelfths add up to the whole in exact arithmetic. *)
Lemma exact_twelve_shares pow (x : Qc) :
  sum (AR := exact pow) (repeat (x / Exact.of_Z 12)%Qc 12) = x.
Proof.
  unfold sum. cbn [repeat fold_left nadd num_of_Z exact].
  set (q := (x / Exact.of_Z 12)%Qc).
  assert (Hq : x = (q * Exact.of_Z 12)%Qc).
  { unfold q. field. intro H. apply (f_equal this) in H. discriminate H. }
  assert (H0 : Exact.of_Z 0 = 0%Qc) by (apply Qc_is_canon; reflexivity).
  assert (H12 : Exact.of_Z 12 = (1+1+1+1+1+1+1+1+1+1+1+1)%Qc)
    by (apply Qc_is_canon; reflexivity).
  rewrite H0. rewrite Hq at 1. rewrite H12. ring.
Qed.

(** * The claims *)

(** ** C1: the loan window *)

(** C1 as stated fails: with 100% paid upfront nothing is financed, the
    installment is [-0] and row 1, inside the window [1..7], has an
    [emi] that is not non-zero. *)
Lemma loan_window_counterexample :
  ~ loanWindowClaim (AR := js) fullyUpfront.
Proof.
  intros [H _].
  assert (Hex : exists r,
             nth_error (YearlySummary.rows
                          (buildYearlyProjection (AR := js) fullyUpfront)) 1
             = Some r
             /\ nonzero (AR := js) (YearRow.emi r) = false).
  { eexists. split; vm_compute; reflexivity. }
  destruct Hex as (r & Hr & Hz).
  apply H in Hr. destruct Hr as [_ Hr].
  rewrite Hz in Hr. discriminate Hr. vm_compute. reflexivity.
Qed.

(** C1 (amended).  Row [y] carries [emi = emiAnnual] when
    [1 <= y <= loanNper], where [loanNper = max(0, min(contractYears,
    loanTenureYears))], and the literal 0 otherwise.  On binary64, for a
    contract below 2^53 years: [rows[y].emi != 0] only if
    [1 <= y <= min(contractYears, loanTenureYears)], and every row of
    that window carries the same value [emiAnnual], which is itself zero
    when, for instance, nothing is financed. *)
Theorem loan_window :
  (forall (num : Type) (AR : Arith num) (cfg : ProjectionConfig num)
          (y : nat) (r : YearRow.t num),
      nth_error (YearlySummary.rows (buildYearlyProjection cfg)) y = Some r ->
      YearRow.emi r =
        if (1 <=? y)%nat
           && ($(Z.of_nat y) <=?
                Math_max $0 (Math_min $(contractYears cfg) (loanTenureYears cfg)))%num
        then YearlySummary.emiAnnual (buildYearlyProjection cfg)
        else ($0)%num)
  /\ (forall (pow : float -> float -> float) (cfg : ProjectionConfig float)
             (y : nat) (r : YearRow.t float),
         let s := buildYearlyProjection (AR := f64 pow) cfg in
         (contractYears cfg < 2 ^ 53)%Z ->
         nth_error (YearlySummary.rows s) y = Some r ->
         (nonzero (AR := f64 pow) (YearRow.emi r) = true ->
          inLoanWindow (AR := f64 pow) cfg y = true)
         /\ (inLoanWindow (AR := f64 pow) cfg y = true ->
             YearRow.emi r = YearlySummary.emiAnnual s)).
Proof.
  split.
  - intros num AR cfg y r H. now apply projectionRows_emi.
  - intros pow cfg y r s Hc H.
    assert (Hy : (y < length (projectionRows (AR := f64 pow) cfg))%nat)
      by (apply nth_error_Some; unfold s in H; cbn in H; congruence).
    rewrite projectionRows_length in Hy.
    apply (projectionRows_emi (AR := f64 pow)) in H.
    unfold inLoanWindow.
    destruct y as [|y].
    + cbn [Nat.leb andb] in *. split; intros E; [|discriminate E].
      rewrite H in E. discriminate E.
    + assert (Hw : (F64.of_Z (Z.of_nat (S y)) <=? loanNper (AR := f64 pow) cfg)%float
                   = (F64.of_Z (Z.of_nat (S y)) <=?
                        F64.min (F64.of_Z (contractYears cfg)) (loanTenureYears cfg))%float).
      { cbn [Z.of_nat]. apply leb_max_zero. lia. }
      cbn [nleb f64 num_of_Z Math_min] in H |- *. rewrite Hw in H.
      cbn [Nat.leb andb] in H |- *.
      destruct (PrimFloat.leb _ _); split; intros E; try reflexivity;
        try discriminate E; try exact H.
      rewrite H in E. discriminate E.
Qed.

Lemma loan_window_witness :
  exists r,
    nth_error (YearlySummary.rows (buildYearlyProjection (AR := js) defaultInputs)) 3
    = Some r
    /\ YearRow.emi r =
       YearlySummary.emiAnnual (buildYearlyProjection (AR := js) defaultInputs).
Proof.
  eexists. split.
  - vm_compute. reflexivity.
  - destruct loan_window as [_ H].
    apply (H F64.pow_int defaultInputs 3%nat); vm_compute; reflexivity.
Defined.

(** ** C2: the sign convention *)

(** C2 as stated fails: with [upfrontPercent = 150] the financed amount
    is negative and the installment is positive. *)
Lemma sign_convention_counterexample :
  ~ signConventionClaim (AR := js) overpaidUpfront.
Proof.
  intros [H _]. vm_compute in H. discriminate H.
Qed.

(** C2 (amended).  When the financed amount [loanAmount] and the loan
    rate [loanInterestPct / 100] are finite and [>= 0] and, at a
    non-zero rate, the annuity denominator [1 - pow(1 + rate, -loanNper)]
    lies in (0, 1], then [emiAnnual <= 0] and the [emi] of every row is
    [<= 0].  (It is no invariant of arbitrary inputs: an upfront
    percentage above 100 makes the installment positive.) *)
Theorem sign_convention (pow : float -> float -> float)
        (cfg : ProjectionConfig float) :
  let s := buildYearlyProjection (AR := f64 pow) cfg in
  let rate := (loanInterestPct cfg / 100)%float in
  let nper := F64.max 0 (F64.min (F64.of_Z (contractYears cfg)) (loanTenureYears cfg)) in
  (0 <=? YearlySummary.loanAmount s)%float = true ->
  is_finite (YearlySummary.loanAmount s) = true ->
  (0 <=? rate)%float = true ->
  is_finite rate = true ->
  ((rate =? 0)%float = false ->
   (0 <? 1 - pow (1 + rate) (- nper))%float = true
   /\ (1 - pow (1 + rate) (- nper) <=? 1)%float = true) ->
  (YearlySummary.emiAnnual s <=? 0)%float = true
  /\ Forall (fun r => (YearRow.emi r <=? 0)%float = true) (YearlySummary.rows s).
Proof.
  intros s rate nper Hpv Fpv Hr Fr Hd.
  assert (He : (YearlySummary.emiAnnual s <=? 0)%float = true).
  { unfold s. cbn [buildYearlyProjection YearlySummary.emiAnnual].
    unfold emiAnnual. cbn [nltb f64].
    destruct (PrimFloat.ltb ($0)%num (loanNper (AR := f64 pow) cfg)) eqn:En.
    - apply pmt_nonpos; try assumption.
    - reflexivity. }
  split; [exact He|].
  apply Forall_forall. intros r Hin.
  apply In_nth_error in Hin. destruct Hin as [y Hy].
  rewrite (projectionRows_emi (AR := f64 pow) cfg y r Hy).
  destruct ((1 <=? y)%nat && _); [exact He | reflexivity].
Qed.

Lemma sign_convention_witness :
  (YearlySummary.emiAnnual (buildYearlyProjection (AR := js) defaultInputs) <=? 0)%float
  = true.
Proof.
  apply (sign_convention F64.pow_int defaultInputs).
  - vm_compute. reflexivity.
  - vm_compute. reflexivity.
  - vm_compute. reflexivity.
  - vm_compute. reflexivity.
  - intros _. split; vm_compute; reflexivity.
Defined.

(** ** C3: a failed rate of return *)

(** C3 as stated fails: for a plant of capacity 0 every cash flow is
    zero, the first Newton step is 0/0 and the rate is NaN, yet the
    [irr] field is that NaN and not null. *)
Lemma irr_null_counterexample : ~ irrNullClaim (AR := js) noPlant.
Proof.
  intros H.
  assert (F : irrFailed (AR := js)
                (irr_run (AR := js)
                   (map YearRow.net
                      (YearlySummary.rows (buildYearlyProjection (AR := js) noPlant)))
                   (irr_guess (AR := js))) = true)
    by (vm_compute; reflexivity).
  specialize (H F). vm_compute in H. discriminate H.
Qed.

(** C3 (amended).  Whenever the rate-of-return computation fails, that
    is, ends in a non-finite rate or uses up its 100 iterations without
    leaving through [break], the [irr] field of the summary is the Number
    that [irr] returned (NaN, an infinity or the unconverged rate), never
    null; the summary is built all the same. *)
Theorem irr_failure_is_a_number {num : Type} {AR : Arith num}
        (cfg : ProjectionConfig num) :
  let s := buildYearlyProjection cfg in
  let run := irr_run (map YearRow.net (YearlySummary.rows s)) irr_guess in
  irrFailed run = true ->
  YearlySummary.irr s = Some (IrrRun.rate run)
  /\ YearlySummary.irr s <> None
  /\ (isFinite (IrrRun.rate run) = false
      \/ (IrrRun.broke run = false /\ IrrRun.iterations run = 100%nat)).
Proof.
  cbv zeta. intros Hf. split; [reflexivity|]. split; [discriminate|].
  pose proof (irr_run_exhausted
                (map YearRow.net (YearlySummary.rows (buildYearlyProjection cfg)))
                irr_guess) as Hex.
  revert Hf Hex.
  generalize (irr_run (map YearRow.net (YearlySummary.rows (buildYearlyProjection cfg)))
                      irr_guess).
  intros run Hf Hex. unfold irrFailed in Hf.
  destruct (isFinite (IrrRun.rate run)); [right | now left].
  cbn [negb orb] in Hf. apply negb_true_iff in Hf. auto.
Qed.

Lemma irr_failure_is_a_number_witness :
  YearlySummary.irr (buildYearlyProjection (AR := js) noPlant)
  = Some PrimFloat.nan.
Proof.
  destruct (@irr_failure_is_a_number float js noPlant) as [H _].
  - vm_compute. reflexivity.
  - rewrite H. vm_compute. reflexivity.
Defined.

(** ** C4: the monthly expansion *)

(** C4.  For every configuration the monthly builder succeeds on the
    yearly summary and emits, after the year-0 row, exactly 12 rows per
    contract year; the 12 rows of year [y >= 1] carry the label of the
    year, the month names in order, the year's tariff unchanged, a 1/12
    share of the year's revenue, O&M, installment and net, and the
    rounded 1/12 share of its generation, so that their net fields add
    up to twelve times [rows[y].net / 12].  In exact arithmetic that sum
    is [rows[y].net]; in binary64 it differs from it by rounding only
    (below 1e-9 in each of the 20 years of the default inputs). *)
Theorem monthly_round_trip :
  (forall (num : Type) (AR : Arith num) (cfg : ProjectionConfig num),
      let s := buildYearlyProjection cfg in
      exists m,
        buildMonthlyProjection s = Normal m
        /\ length (MonthlySummary.rows m) = (1 + 12 * Z.to_nat (contractYears cfg))%nat
        /\ forall y yr,
             (1 <= y)%nat ->
             nth_error (YearlySummary.rows s) y = Some yr ->
             length (monthsOfYear m y) = 12%nat
             /\ (forall k mr,
                    nth_error (monthsOfYear m y) k = Some mr ->
                    MonthRow.label mr = ("Y" ++ showZ (Z.of_nat y))%string
                    /\ MonthRow.month mr = nth k months EmptyString
                    /\ MonthRow.tariff mr = YearRow.tariff yr
                    /\ MonthRow.revenue mr = (YearRow.revenue yr / $12)%num
                    /\ MonthRow.omr mr = (YearRow.omr yr / $12)%num
                    /\ MonthRow.emi mr = (YearRow.emi yr / $12)%num
                    /\ MonthRow.net mr = (YearRow.net yr / $12)%num
                    /\ MonthRow.generationKwh mr =
                       Math_round (YearRow.generationKwh yr / $12)%num)
             /\ sum (map MonthRow.net (monthsOfYear m y)) =
                sum (repeat (YearRow.net yr / $12)%num 12))
  /\ (forall (pow : Qc -> Qc -> Qc) (cfg : ProjectionConfig Qc),
         let s := buildYearlyProjection (AR := exact pow) cfg in
         forall m y yr,
           buildMonthlyProjection (AR := exact pow) s = Normal m ->
           (1 <= y)%nat ->
           nth_error (YearlySummary.rows s) y = Some yr ->
           sum (AR := exact pow) (map MonthRow.net (monthsOfYear m y)) =
           YearRow.net yr)
  /\ (let s := buildYearlyProjection (AR := js) defaultInputs in
      exists m,
        buildMonthlyProjection (AR := js) s = Normal m
        /\ forallb (fun y =>
                      match roundTripGap (AR := js) s m y with
                      | Some gap => (gap <=? 1e-9)%float
                      | None => false
                      end) (seq 1 20) = true).
Proof.
  split; [|split].
  - intros num AR cfg s.
    destruct (buildMonthlyProjection s) as [m|] eqn:Em.
    2:{ unfold s in Em. cbn in Em. discriminate Em. }
    exists m. split; [reflexivity|]. split.
    + unfold s in Em. cbn [buildYearlyProjection buildMonthlyProjection
                           YearlySummary.rows projectionRows] in Em.
      injection Em as <-. cbn [MonthlySummary.rows length].
      now rewrite monthLoop_length, yearLoop_length.
    + intros y yr Hy H.
      rewrite (monthsOfYear_block s m y yr Em Hy H).
      split; [|split].
      * now rewrite length_map, length_seq.
      * intros k mr Hk.
        assert (Hlt : (k < 12)%nat).
        { assert (Hl : (k < length (map (monthRow (Z.of_nat y) yr) (seq 0 12)))%nat)
            by (apply nth_error_Some; congruence).
          now rewrite length_map, length_seq in Hl. }
        rewrite nth_error_map in Hk.
        rewrite (nth_error_nth' _ O) in Hk by now rewrite length_seq.
        rewrite seq_nth in Hk by exact Hlt.
        cbn [option_map Nat.add] in Hk. injection Hk as <-.
        repeat split.
      * reflexivity.
  - intros pow cfg s m y yr Em Hy H.
    rewrite (monthsOfYear_block (AR := exact pow) s m y yr Em Hy H).
    change (map MonthRow.net (map (monthRow (AR := exact pow) (Z.of_nat y) yr) (seq 0 12)))
      with (repeat (YearRow.net yr / Exact.of_Z 12)%Qc 12).
    apply exact_twelve_shares.
  - eexists. split; vm_compute; reflexivity.
Qed.

(** ** C5: cumulative consistency *)

(** C5.  For every configuration, [cumulative] of the yearly summary is
    aligned index for index with [rows], and its entry [i] carries the
    year of row [i] and the sum of [rows[0].net .. rows[i].net]; the
    monthly builder succeeds on the yearly summary and entry [i] of its
    [cumulative] is the sum of the net fields of its rows [0 .. i].  Sums
    add left to right from 0, as the code accumulates them. *)
Theorem cumulative_consistency {num : Type} {AR : Arith num}
        (cfg : ProjectionConfig num) :
  let s := buildYearlyProjection cfg in
  (length (YearlySummary.cumulative s) = length (YearlySummary.rows s)
   /\ forall i r,
        nth_error (YearlySummary.rows s) i = Some r ->
        nth_error (YearlySummary.cumulative s) i =
        Some (CumPoint.mk (YearRow.year r) (netUpTo (YearlySummary.rows s) i)))
  /\ exists m,
       buildMonthlyProjection s = Normal m
       /\ length (MonthlySummary.cumulative m) = length (MonthlySummary.rows m)
       /\ forall i,
            (i < length (MonthlySummary.rows m))%nat ->
            nth_error (MonthlySummary.cumulative m) i =
            Some (monthlyNetUpTo (MonthlySummary.rows m) i).
Proof.
  cbv zeta. split.
  - apply cumulative_spec.
  - unfold buildMonthlyProjection.
    cbn [buildYearlyProjection YearlySummary.rows projectionRows].
    eexists. split; [reflexivity|]. cbn [MonthlySummary.cumulative MonthlySummary.rows].
    split.
    + apply runningNet_length.
    + intros i Hi. now apply runningNet_nth.
Qed.

(** ** C6: escalation *)

(** C6.  The rows of the contract years exist: there is one row for
    year 0 and one for each year [1 .. contractYears].  Year 1 uses the
    base tariff, the base O&M and the base generation; for every year
    [2 <= y <= contractYears] the tariff and the O&M of row [y] are
    those of row [y-1] times [1 + tariffEscalationPct/100] and
    [1 + omrEscalationPct/100]; the generation of row [y] is the rounded
    value of a quantity that starts at the base generation and is
    multiplied by [1 - degradationPct/100] every year.  No other row
    exists, so the same relations hold of any rows [y-1] and [y] that
    are read from the table. *)
Theorem escalation {num : Type} {AR : Arith num} (cfg : ProjectionConfig num) :
  let rows := YearlySummary.rows (buildYearlyProjection cfg) in
  let n := Z.to_nat (contractYears cfg) in
  length rows = S n
  /\ ((1 <= n)%nat ->
      exists r1,
        nth_error rows 1 = Some r1
        /\ YearRow.year r1 = 1%Z
        /\ YearRow.tariff r1 = ppaTariff cfg
        /\ YearRow.omr r1 = (capacityKw cfg * omrPerKwYear cfg)%num
        /\ YearRow.generationKwh r1 =
           Math_round (capacityKw cfg * unitsPerKwDay cfg * $365)%num)
  /\ (forall y,
         (2 <= y <= n)%nat ->
         exists r r',
           nth_error rows (y - 1) = Some r
           /\ nth_error rows y = Some r'
           /\ YearRow.year r' = Z.of_nat y
           /\ YearRow.tariff r' =
                (YearRow.tariff r * ($1 + tariffEscalationPct cfg / $100))%num
           /\ YearRow.omr r' =
                (YearRow.omr r * ($1 + omrEscalationPct cfg / $100))%num)
  /\ (forall y,
         (1 <= y <= n)%nat ->
         exists r,
           nth_error rows y = Some r
           /\ YearRow.generationKwh r = Math_round (genOfYear cfg y))
  /\ (forall r1,
         nth_error rows 1 = Some r1 ->
         YearRow.tariff r1 = ppaTariff cfg
         /\ YearRow.omr r1 = (capacityKw cfg * omrPerKwYear cfg)%num
         /\ YearRow.generationKwh r1 =
            Math_round (capacityKw cfg * unitsPerKwDay cfg * $365)%num)
  /\ (forall y r r',
         (2 <= y)%nat ->
         nth_error rows (y - 1) = Some r ->
         nth_error rows y = Some r' ->
         YearRow.tariff r' =
           (YearRow.tariff r * ($1 + tariffEscalationPct cfg / $100))%num
         /\ YearRow.omr r' =
           (YearRow.omr r * ($1 + omrEscalationPct cfg / $100))%num)
  /\ (forall y r,
         (1 <= y)%nat ->
         nth_error rows y = Some r ->
         YearRow.generationKwh r = Math_round (genOfYear cfg y))
  /\ genOfYear cfg 1 = (capacityKw cfg * unitsPerKwDay cfg * $365)%num
  /\ (forall y,
         (1 <= y)%nat ->
         genOfYear cfg (S y) =
           (genOfYear cfg y * ($1 - degradationPct cfg / $100))%num).
Proof.
  cbv zeta. cbn [buildYearlyProjection YearlySummary.rows].
  pose proof (projectionRows_length cfg) as Hlen.
  assert (Hex : forall y, (y <= Z.to_nat (contractYears cfg))%nat ->
                          exists r, nth_error (projectionRows cfg) y = Some r).
  { intros y Hy. destruct (nth_error (projectionRows cfg) y) as [r|] eqn:E; [eauto|].
    apply nth_error_None in E. lia. }
  assert (H1 : forall r1,
             nth_error (projectionRows cfg) 1 = Some r1 ->
             YearRow.tariff r1 = ppaTariff cfg
             /\ YearRow.omr r1 = (capacityKw cfg * omrPerKwYear cfg)%num
             /\ YearRow.generationKwh r1 =
                Math_round (capacityKw cfg * unitsPerKwDay cfg * $365)%num).
  { intros r1 H. cbn in H.
    destruct (Z.to_nat (contractYears cfg)); [discriminate|].
    cbn in H. injection H as <-. repeat split. }
  assert (H2 : forall y r r',
             (2 <= y)%nat ->
             nth_error (projectionRows cfg) (y - 1) = Some r ->
             nth_error (projectionRows cfg) y = Some r' ->
             YearRow.tariff r' =
               (YearRow.tariff r * ($1 + tariffEscalationPct cfg / $100))%num
             /\ YearRow.omr r' =
               (YearRow.omr r * ($1 + omrEscalationPct cfg / $100))%num).
  { intros y r r' Hy H H'.
    destruct y as [|[|y]]; try lia.
    replace (S (S y) - 1)%nat with (S y) in H by lia.
    unfold projectionRows in H, H'. cbn [nth_error] in H, H'.
    eapply yearLoop_escalation; [| exact H | exact H']. lia. }
  assert (H3 : forall y r,
             (1 <= y)%nat ->
             nth_error (projectionRows cfg) y = Some r ->
             YearRow.generationKwh r = Math_round (genOfYear cfg y)).
  { intros y r Hy H. destruct y as [|y]; [lia|].
    unfold projectionRows in H. cbn [nth_error] in H.
    change 1%Z with (Z.of_nat 1) in H.
    apply yearLoop_generation in H; [exact H | lia | reflexivity]. }
  split; [exact Hlen|].
  split.
  { intros Hn. destruct (Hex 1%nat Hn) as [r1 Hr1]. exists r1.
    split; [exact Hr1|]. split; [exact (rows_year cfg 1 r1 Hr1)|].
    exact (H1 r1 Hr1). }
  split.
  { intros y [Hy2 Hyn].
    destruct (Hex (y - 1)%nat) as [r Hr]; [lia|].
    destruct (Hex y Hyn) as [r' Hr'].
    exists r, r'. split; [exact Hr|]. split; [exact Hr'|].
    split; [exact (rows_year cfg y r' Hr')|].
    exact (H2 y r r' Hy2 Hr Hr'). }
  split.
  { intros y [Hy1 Hyn]. destruct (Hex y Hyn) as [r Hr]. exists r.
    split; [exact Hr|]. exact (H3 y r Hy1 Hr). }
  split; [exact H1|]. split; [exact H2|]. split; [exact H3|].
  split; [reflexivity|].
  intros y Hy. destruct y as [|y]; [lia | reflexivity].
Qed.

(** On the default inputs rows 1 and 2 exist and the tariff of row 2
    is that of row 1 escalated by 2 %. *)
Lemma escalation_witness :
  exists r r',
    nth_error (YearlySummary.rows (buildYearlyProjection (AR := js) defaultInputs)) 1 = Some r
    /\ nth_error (YearlySummary.rows (buildYearlyProjection (AR := js) defaultInputs)) 2 = Some r'
    /\ YearRow.tariff r' = (YearRow.tariff r * (1 + 2.0 / 100))%float
    /\ YearRow.omr r' = (YearRow.omr r * (1 + 3.0 / 100))%float.
Proof.
  pose proof (escalation (AR := js) defaultInputs) as H. cbv zeta in H.
  destruct H as (_ & _ & H & _).
  destruct (H 2%nat) as (r & r' & Hr & Hr' & _ & Ht & Ho).
  - change (Z.to_nat (contractYears defaultInputs)) with 20%nat. lia.
  - exists r, r'. repeat split; assumption.
Defined.

(** ** C7: payback year *)

(** C7.  [paybackYear] is the first row index (the year, row 0
    included) at which the running total of [net] is [>= 0], and it is
    null exactly when the total is [>= 0] at no row of the horizon. *)
Theorem payback_year {num : Type} {AR : Arith num} (cfg : ProjectionConfig num) :
  let s := buildYearlyProjection cfg in
  let rows := YearlySummary.rows s in
  match YearlySummary.paybackYear s with
  | Some p =>
      exists i r,
        p = Z.of_nat i /\ nth_error rows i = Some r /\ YearRow.year r = p
        /\ paidBackAt rows i = true
        /\ forall j, (j < i)%nat -> paidBackAt rows j = false
  | None =>
      forall j, (j < length rows)%nat -> paidBackAt rows j = false
  end
  /\ ((forall j, (j < length rows)%nat -> paidBackAt rows j = false) ->
      YearlySummary.paybackYear s = None).
Proof.
  cbv zeta. cbn [buildYearlyProjection YearlySummary.rows YearlySummary.paybackYear].
  pose proof (paybackFrom_spec (projectionRows cfg) 0%Z ($0)%num) as H.
  unfold paidBackAt, netUpTo, sum.
  destruct (paybackFrom 0 ($0)%num (projectionRows cfg)) as [p|].
  - destruct H as (k & -> & Hk & Hge & Hlt). split.
    + destruct (nth_error (projectionRows cfg) k) as [r|] eqn:E.
      * exists k, r. repeat split; try assumption; try lia.
        rewrite (rows_year cfg k r E). lia.
      * apply nth_error_None in E. lia.
    + intros Hnever. rewrite (Hnever k Hk) in Hge. discriminate.
  - split; [exact H | reflexivity].
Qed.

(** ** C8: the concrete scenario *)

(** C8.  For capacityKw = 50, unitsPerKwDay = 4.2, contractYears = 20,
    ppaTariff = 5.0, capexPerKw = 42000 and upfrontPercent = 20, whatever
    the other inputs and whatever [Math.pow] computes, the summary has
    capexTotal = 2,100,000, upfront = 420,000,
    year1Gen = round(50 * 4.2 * 365) = 76,650 and year1Revenue = 383,250,
    in binary64 arithmetic. *)
Theorem concrete_scenario (pow : float -> float -> float)
        (degradation tariffEscalation loanInterest loanTenure omrPerKw
         omrEscalation discountRate : float) :
  let s := buildYearlyProjection (AR := f64 pow) {|
               capacityKw := 50;
               unitsPerKwDay := 4.2;
               degradationPct := degradation;
               contractYears := 20;
               ppaTariff := 5.0;
               tariffEscalationPct := tariffEscalation;
               capexPerKw := 42000;
               upfrontPercent := 20;
               loanInterestPct := loanInterest;
               loanTenureYears := loanTenure;
               omrPerKwYear := omrPerKw;
               omrEscalationPct := omrEscalation;
               discountRatePct := discountRate
             |}%float in
  YearlySummary.capexTotal s = 2100000%float
  /\ YearlySummary.upfront s = 420000%float
  /\ YearlySummary.year1Gen s = F64.round (50 * 4.2 * 365)%float
  /\ F64.round (50 * 4.2 * 365)%float = 76650%float
  /\ YearlySummary.year1Revenue s = 383250%float.
Proof.
  cbv zeta.
  cbn [buildYearlyProjection YearlySummary.capexTotal YearlySummary.upfront
       YearlySummary.year1Gen YearlySummary.year1Revenue].
  repeat split; vm_compute; reflexivity.
Qed.

(** ** C9: net present value *)

(** C9.  On binary64, [npv] returns the sum over the periods [t] of
    [cashflow[t] / pow(1 + discountRate, t)], added left to right from 0;
    period 0 is undiscounted since [pow(b, 0) = 1] and [x / 1 = x]; and
    at rate 0 it returns exactly the sum of the cash flows, provided
    [Math.pow] gives [pow(1, t) = 1] at the periods in use. *)
Theorem npv_discounted_sum (pow : float -> float -> float) (cashflows : list float) :
  (forall b, pow b 0%float = 1%float) ->
  (forall t, (0 <= t < Z.of_nat (length cashflows))%Z ->
             pow 1%float (F64.of_Z t) = 1%float) ->
  npv (AR := f64 pow) 0%float cashflows = sum (AR := f64 pow) cashflows
  /\ forall discountRate,
       npv (AR := f64 pow) discountRate cashflows =
       sum (AR := f64 pow) (discounted (AR := f64 pow) discountRate 0 cashflows)
       /\ (forall t cf,
              nth_error cashflows t = Some cf ->
              nth_error (discounted (AR := f64 pow) discountRate 0 cashflows) t =
              Some (cf / pow (1 + discountRate) (F64.of_Z (Z.of_nat t)))%float)
       /\ (forall cf,
              nth_error cashflows 0 = Some cf ->
              nth_error (discounted (AR := f64 pow) discountRate 0 cashflows) 0 =
              Some cf).
Proof.
  intros Hpow0 Hpow1. split.
  - unfold npv, reduce. rewrite npv_from_discounted.
    rewrite discounted_rate_zero; [reflexivity|].
    intros t Ht. apply Hpow1. lia.
  - intros r. split; [|split].
    + unfold npv, reduce. now rewrite npv_from_discounted.
    + intros t cf H. rewrite (discounted_nth _ _ _ _ _ H). reflexivity.
    + intros cf H. rewrite (discounted_nth _ _ _ _ _ H).
      cbn [ndiv nadd num_of_Z Math_pow f64 Z.of_nat Z.add].
      change (F64.of_Z 0) with 0%float.
      now rewrite Hpow0, f64_div_one.
Qed.

Lemma npv_discounted_sum_witness :
  npv (AR := js) 0%float [-100; 60; 60]%float = 20%float.
Proof.
  destruct (npv_discounted_sum F64.pow_int [-100; 60; 60]%float) as [H _].
  - intros b. reflexivity.
  - intros t Ht. cbn [length Z.of_nat] in Ht.
    assert (Hc : t = 0%Z \/ t = 1%Z \/ t = 2%Z) by lia.
    destruct Hc as [-> | [-> | ->]]; vm_compute; reflexivity.
  - unfold js. rewrite H. vm_compute. reflexivity.
Defined.

(** ** C10: the internal rate of return never throws *)

(** C10.  For every cash-flow sequence and guess, [irr] completes
    normally with a Number after at most 100 Newton-Raphson iterations
    (fewer only when the loop left through [break]); hence the [catch]
    branch around the call in [buildYearlyProjection] is never taken and
    the [irr] field of the summary is never null. *)
Theorem irr_never_throws {num : Type} {AR : Arith num} :
  (forall (cashflows : list num) (guess : num),
      let run := irr_run cashflows guess in
      irr cashflows guess = Normal (IrrRun.rate run)
      /\ (IrrRun.iterations run <= 100)%nat
      /\ ((IrrRun.iterations run < 100)%nat -> IrrRun.broke run = true))
  /\ (forall cfg : ProjectionConfig num,
         let s := buildYearlyProjection cfg in
         returning Some (irr (map YearRow.net (YearlySummary.rows s)) irr_guess)
           <> Throw
         /\ YearlySummary.irr s <> None).
Proof.
  split.
  - intros cashflows guess run. repeat split.
    + apply irr_loop_iterations.
    + apply irr_loop_broke.
  - intros cfg s. unfold s, irr.
    cbn [buildYearlyProjection YearlySummary.irr YearlySummary.rows returning tryCatch].
    unfold irr. cbn [returning tryCatch]. split; discriminate.
Qed.

(** * Further properties of the code *)

(** ** The yearly rows *)

Section MoreYearly.
Context {num : Type} {AR : Arith num}.
#[local] Open Scope num_scope.
Variable cfg : ProjectionConfig num.

Lemma yearLoop_net n y g t o k r :
  nth_error (yearLoop cfg n y g t o) k = Some r ->
  YearRow.net r = YearRow.revenue r - YearRow.omr r + YearRow.emi r.
Proof.
  revert n y g t o. induction k as [|k IH]; intros n y g t o H.
  - destruct n; cbn in H; [discriminate|]. now injection H as <-.
  - destruct n; cbn in H; [discriminate|]. now apply IH in H.
Qed.

(** The revenue of each year is the unrounded generation of that year
    times its tariff. *)
Lemma yearLoop_revenue n (y : nat) g t o k r :
  (1 <= y)%nat ->
  g = genOfYear cfg (y - 1) ->
  nth_error (yearLoop cfg n (Z.of_nat y) g t o) k = Some r ->
  YearRow.revenue r = genOfYear cfg (y + k) * YearRow.tariff r.
Proof.
  revert n y g t o. induction k as [|k IH]; intros n y g t o Hy Hg H.
  - destruct n as [|n]; [discriminate|]. cbn in H. injection H as <-. cbn.
    rewrite Nat.add_0_r. subst g.
    destruct y as [|[|y]]; [lia | reflexivity |].
    replace (1 <? Z.of_nat (S (S y)))%Z with true by (symmetry; apply Z.ltb_lt; lia).
    replace (S (S y) - 1)%nat with (S y) by lia. reflexivity.
  - destruct n as [|n]; [discriminate|].
    cbn [yearLoop nth_error] in H.
    replace (Z.of_nat y + 1)%Z with (Z.of_nat (S y)) in H by lia.
    replace (y + S k)%nat with (S y + k)%nat by lia.
    eapply IH; [| | exact H]; [lia|].
    subst g. replace (S y - 1)%nat with y by lia.
    destruct y as [|[|y]]; [lia | reflexivity |].
    replace (1 <? Z.of_nat (S (S y)))%Z with true by (symmetry; apply Z.ltb_lt; lia).
    replace (S (S y) - 1)%nat with (S y) by lia. reflexivity.
Qed.
End MoreYearly.

(** X1.  The rows of the yearly summary are indexed by year: there are
    [max(0, contractYears) + 1] of them, row [i] has [year = i], and row
    0 is the outlay row, all zero except [net = -upfront] with
    [upfront = (upfrontPercent / 100) * (capacityKw * capexPerKw)].  A
    non-positive [contractYears] leaves row 0 alone. *)
Theorem rows_indexed_by_year {num : Type} {AR : Arith num}
        (cfg : ProjectionConfig num) :
  let s := buildYearlyProjection cfg in
  let rows := YearlySummary.rows s in
  length rows = S (Z.to_nat (contractYears cfg))
  /\ (forall i r, nth_error rows i = Some r -> YearRow.year r = Z.of_nat i)
  /\ nth_error rows 0 =
     Some (YearRow.mk 0 ($0) ($0) ($0) ($0) ($0)
             (- (upfrontPercent cfg / $100 * (capacityKw cfg * capexPerKw cfg))))%num
  /\ ((contractYears cfg <= 0)%Z -> length rows = 1%nat).
Proof.
  cbv zeta. cbn [buildYearlyProjection YearlySummary.rows].
  split; [apply projectionRows_length|].
  split; [apply rows_year|].
  split; [reflexivity|].
  intros Hc. rewrite projectionRows_length.
  now replace (Z.to_nat (contractYears cfg)) with O by lia.
Qed.

(** X2.  In every row of a contract year [y >= 1] the net cash flow is
    [revenue - omr + emi], computed in that order, and the revenue is
    the unrounded generation of the year times the tariff of the row
    (the row itself only shows the rounded generation). *)
Theorem row_net_identity {num : Type} {AR : Arith num}
        (cfg : ProjectionConfig num) (y : nat) (r : YearRow.t num) :
  (1 <= y)%nat ->
  nth_error (YearlySummary.rows (buildYearlyProjection cfg)) y = Some r ->
  YearRow.net r = (YearRow.revenue r - YearRow.omr r + YearRow.emi r)%num
  /\ YearRow.revenue r = (genOfYear cfg y * YearRow.tariff r)%num
  /\ YearRow.generationKwh r = Math_round (genOfYear cfg y).
Proof.
  cbn [buildYearlyProjection YearlySummary.rows]. intros Hy H.
  destruct y as [|y]; [lia|].
  unfold projectionRows in H. cbn [nth_error] in H.
  split; [now apply yearLoop_net in H|].
  change 1%Z with (Z.of_nat 1) in H. split.
  - apply yearLoop_revenue in H; [exact H | lia | reflexivity].
  - apply yearLoop_generation in H; [exact H | lia | reflexivity].
Qed.

Lemma row_net_identity_witness :
  exists r,
    nth_error (YearlySummary.rows (buildYearlyProjection (AR := js) defaultInputs)) 2
    = Some r
    /\ YearRow.net r =
       (YearRow.revenue r - YearRow.omr r + YearRow.emi r)%float.
Proof.
  eexists. split.
  - vm_compute. reflexivity.
  - apply (row_net_identity (AR := js) defaultInputs 2%nat).
    + lia.
    + vm_compute. reflexivity.
Defined.

(** X3.  When the contract has at least one year, the year-1 figures of
    the summary are those of row 1: [year1Gen] is its [generationKwh]
    and [year1Revenue] its [revenue]. *)
Theorem year1_figures {num : Type} {AR : Arith num} (cfg : ProjectionConfig num) :
  (1 <= contractYears cfg)%Z ->
  let s := buildYearlyProjection cfg in
  exists r1,
    nth_error (YearlySummary.rows s) 1 = Some r1
    /\ YearlySummary.year1Gen s = YearRow.generationKwh r1
    /\ YearlySummary.year1Revenue s = YearRow.revenue r1
    /\ YearRow.tariff r1 = ppaTariff cfg.
Proof.
  intros Hc s. unfold s.
  cbn [buildYearlyProjection YearlySummary.rows YearlySummary.year1Gen
       YearlySummary.year1Revenue projectionRows nth_error].
  destruct (Z.to_nat (contractYears cfg)) as [|n] eqn:E; [lia|].
  cbn [yearLoop nth_error]. eexists. split; [reflexivity|].
  cbn. repeat split.
Qed.

Lemma year1_figures_witness :
  exists r1,
    nth_error (YearlySummary.rows (buildYearlyProjection (AR := js) defaultInputs)) 1
    = Some r1
    /\ YearRow.revenue r1 = 383250%float.
Proof.
  destruct (year1_figures (AR := js) defaultInputs) as (r1 & H1 & _ & H3 & _).
  - vm_compute. discriminate.
  - exists r1. split; [exact H1|]. rewrite <- H3. vm_compute. reflexivity.
Defined.

(** X4.  The payback year is read off the cumulative series: it is the
    first index whose [cumulative[i].value] is [>= 0], that entry
    carries the payback year as its [year], and it is null exactly when
    no entry of [cumulative] is [>= 0]. *)
Theorem payback_is_first_nonnegative_cumulative {num : Type} {AR : Arith num}
        (cfg : ProjectionConfig num) :
  let s := buildYearlyProjection cfg in
  match YearlySummary.paybackYear s with
  | Some p =>
      exists i c,
        p = Z.of_nat i
        /\ nth_error (YearlySummary.cumulative s) i = Some c
        /\ CumPoint.year c = p
        /\ (CumPoint.value c >=? $0)%num = true
        /\ forall j c',
             (j < i)%nat ->
             nth_error (YearlySummary.cumulative s) j = Some c' ->
             (CumPoint.value c' >=? $0)%num = false
  | None =>
      forall c, In c (YearlySummary.cumulative s) ->
                (CumPoint.value c >=? $0)%num = false
  end.
Proof.
  cbv zeta.
  cbn [buildYearlyProjection YearlySummary.paybackYear YearlySummary.cumulative].
  pose proof (paybackFrom_spec (projectionRows cfg) 0%Z ($0)%num) as H.
  destruct (cumulative_spec (projectionRows cfg)) as [Hlen Hnth].
  set (rows := projectionRows cfg) in *.
  set (cum := fold_left cumulativeStep rows []) in *.
  assert (Hc : forall j c, nth_error cum j = Some c ->
                 exists r, nth_error rows j = Some r
                   /\ c = CumPoint.mk (YearRow.year r) (netUpTo rows j)).
  { intros j c Hj.
    assert (Hlt : (j < length rows)%nat)
      by (rewrite <- Hlen; apply nth_error_Some; congruence).
    destruct (nth_error rows j) as [r|] eqn:Er.
    - exists r. split; [reflexivity|]. rewrite (Hnth j r Er) in Hj. congruence.
    - apply nth_error_None in Er. lia. }
  destruct (paybackFrom 0 ($0)%num rows) as [p|].
  - destruct H as (k & -> & Hk & Hge & Hlt).
    destruct (nth_error rows k) as [r|] eqn:Er.
    2:{ apply nth_error_None in Er. lia. }
    exists k, (CumPoint.mk (YearRow.year r) (netUpTo rows k)).
    split; [lia|]. split; [now apply Hnth|].
    split; [cbn; rewrite (rows_year cfg k r Er); lia|].
    split; [exact Hge|].
    intros j c' Hj Hc'. destruct (Hc j c' Hc') as (r' & _ & ->). cbn.
    now apply Hlt.
  - intros c Hin. apply In_nth_error in Hin. destruct Hin as [j Hj].
    destruct (Hc j c Hj) as (r' & Hr' & ->). cbn. apply H.
    apply nth_error_Some. congruence.
Qed.

(** ** Degenerate loans and horizons on binary64 *)

Lemma ltb_zero_trans (a b : float) :
  (0 <? a)%float = true -> (a <? b)%float = true -> (0 <? b)%float = true.
Proof.
  rewrite !ltb_spec, SF_zero. unfold SFltb.
  destruct (Prim2SF a) as [?|[]| |[] ? ?]; cbn; try discriminate;
    destruct (Prim2SF b) as [?|[]| |[] ? ?]; cbn; try discriminate; auto.
Qed.

(** A Number that is neither below nor above a positive one, and is not
    NaN, is positive. *)
Lemma ltb_zero_equal (a b : float) :
  (0 <? a)%float = true ->
  (a <? b)%float = false -> (b <? a)%float = false -> is_nan b = false ->
  (0 <? b)%float = true.
Proof.
  intros Ha Hab Hba Hn.
  assert (Hb : Prim2SF b <> S754_nan).
  { intros E. apply is_nan_spec in E. congruence. }
  revert Ha Hab Hba. rewrite !ltb_spec, SF_zero. unfold SFltb.
  destruct (Prim2SF a) as [?|[]| |[] ma ea]; cbn; try discriminate;
    destruct (Prim2SF b) as [?|[]| |[] mb eb]; cbn; try discriminate; auto;
    try congruence.
Qed.

(** The minimum with a Number that is not positive is not positive. *)
Lemma min_not_positive (a b : float) :
  (0 <? b)%float = false -> (0 <? F64.min a b)%float = false.
Proof.
  intros Hb. unfold F64.min.
  destruct (is_nan a || is_nan b) eqn:En; [reflexivity|].
  apply orb_false_elim in En. destruct En as [Ena Enb].
  destruct (a <? b)%float eqn:Eab.
  - destruct (0 <? a)%float eqn:Ea; [|reflexivity].
    rewrite (ltb_zero_trans a b Ea Eab) in Hb. discriminate Hb.
  - destruct (b <? a)%float eqn:Eba; [exact Hb|].
    destruct (get_sign a); [|exact Hb].
    destruct (0 <? a)%float eqn:Ea; [|reflexivity].
    rewrite (ltb_zero_equal a b Ea Eab Eba Enb) in Hb. discriminate Hb.
Qed.

Lemma max_zero_not_positive (m : float) :
  (0 <? m)%float = false -> (0 <? F64.max 0 m)%float = false.
Proof.
  intros Hm. unfold F64.max.
  change (is_nan 0) with false. change (get_sign 0) with false. cbn [orb].
  destruct (is_nan m); [reflexivity|]. rewrite Hm.
  destruct (m <? 0)%float; reflexivity.
Qed.

(** X5.  A loan tenure that is not positive (zero, negative or NaN)
    means no loan: whatever the other inputs, [emiAnnual] is [0] and the
    [emi] of every row is [0]. *)
Theorem no_installment_without_tenure (pow : float -> float -> float)
        (cfg : ProjectionConfig float) :
  (0 <? loanTenureYears cfg)%float = false ->
  let s := buildYearlyProjection (AR := f64 pow) cfg in
  YearlySummary.emiAnnual s = 0%float
  /\ Forall (fun r => YearRow.emi r = 0%float) (YearlySummary.rows s).
Proof.
  intros Ht s.
  assert (Hn : (0 <? loanNper (AR := f64 pow) cfg)%float = false).
  { unfold loanNper. cbn [Math_max Math_min num_of_Z f64].
    change (F64.of_Z 0) with 0%float.
    apply max_zero_not_positive, min_not_positive, Ht. }
  assert (He : emiAnnual (AR := f64 pow) cfg = 0%float).
  { unfold emiAnnual. cbn [nltb num_of_Z f64].
    change (F64.of_Z 0) with 0%float. now rewrite Hn. }
  split; [exact He|].
  apply Forall_forall. intros r Hin.
  apply In_nth_error in Hin. destruct Hin as [y Hy].
  unfold s in Hy. cbn [buildYearlyProjection YearlySummary.rows] in Hy.
  rewrite (projectionRows_emi (AR := f64 pow) cfg y r Hy), He.
  now destruct (_ && _).
Qed.

Lemma no_installment_without_tenure_witness :
  YearlySummary.emiAnnual (buildYearlyProjection (AR := js) withoutTenure) = 0%float.
Proof.
  apply (no_installment_without_tenure F64.pow_int). vm_compute. reflexivity.
Defined.

(** *** The rate of return of fewer than two cash flows *)

(** NaN or an infinity. *)
Lemma not_finite_spec (x : float) :
  Prim2SF x = S754_nan \/ (exists s, Prim2SF x = S754_infinity s) ->
  is_finite x = false.
Proof.
  unfold is_finite, is_nan, is_infinity. rewrite !eqb_spec, abs_spec.
  intros [E | [s E]]; rewrite E; [reflexivity|].
  destruct s; vm_compute; reflexivity.
Qed.

Lemma div_by_zero_not_finite (x : float) :
  Prim2SF (x / 0)%float = S754_nan
  \/ exists s, Prim2SF (x / 0)%float = S754_infinity s.
Proof.
  rewrite div_spec, SF_zero.
  destruct (Prim2SF x) as [s|s| |s m e]; cbn; eauto.
Qed.

Lemma sub_not_finite (x y : float) :
  Prim2SF y = S754_nan \/ (exists s, Prim2SF y = S754_infinity s) ->
  Prim2SF (x - y)%float = S754_nan
  \/ exists s, Prim2SF (x - y)%float = S754_infinity s.
Proof.
  rewrite sub_spec. intros [E | [s E]]; rewrite E.
  - destruct (Prim2SF x); cbn; eauto.
  - destruct (Prim2SF x) as [sx|[]| |sx m e]; destruct s; cbn; eauto.
Qed.

Lemma irr_loop_step {num : Type} {AR : Arith num} budget (cashflows : list num) rate :
  irr_loop (S budget) cashflows rate =
  (let '(f, df) := irr_pass rate 0%Z cashflows ($0)%num ($0)%num in
   let step := (f / df)%num in
   let rate := (rate - step)%num in
   if negb (isFinite rate) || (Math_abs step <? dec 1 100000000)%num
   then IrrRun.mk rate 1%nat true
   else
     let run := irr_loop budget cashflows rate in
     IrrRun.mk (IrrRun.rate run) (S (IrrRun.iterations run)) (IrrRun.broke run)).
Proof. reflexivity. Qed.

(** With fewer than two cash flows the derivative stays 0, the first
    Newton step divides by it and the loop breaks at once. *)
Lemma irr_short (pow : float -> float -> float) (cashflows : list float) (guess : float) :
  (length cashflows <= 1)%nat ->
  exists r,
    irr_run (AR := f64 pow) cashflows guess = IrrRun.mk r 1%nat true
    /\ is_finite r = false.
Proof.
  intros Hl. unfold irr_run. change 100%nat with (S 99). rewrite irr_loop_step.
  assert (Hdf : exists f, irr_pass (AR := f64 pow) guess 0 cashflows
                            (F64.of_Z 0) (F64.of_Z 0) = (f, 0%float)).
  { destruct cashflows as [|cf [|c2 rest]]; cbn in Hl; try lia; cbn; eauto. }
  destruct Hdf as [f Hf]. cbn [num_of_Z f64] in *. rewrite Hf.
  cbn [ndiv nsub isFinite f64].
  assert (Hnf : is_finite (guess - f / 0)%float = false)
    by apply not_finite_spec, sub_not_finite, div_by_zero_not_finite.
  rewrite Hnf. cbn [negb orb]. eauto.
Qed.

(** X6.  The rate of return needs two cash flows: for an empty or
    one-element sequence, whatever the guess and whatever [Math.pow]
    computes, [irr] breaks out of its first iteration with a rate that
    is not finite (NaN or an infinity). *)
Theorem irr_needs_two_cashflows (pow : float -> float -> float)
        (cashflows : list float) (guess : float) :
  (length cashflows <= 1)%nat ->
  let run := irr_run (AR := f64 pow) cashflows guess in
  is_finite (IrrRun.rate run) = false
  /\ IrrRun.iterations run = 1%nat
  /\ IrrRun.broke run = true
  /\ irr (AR := f64 pow) cashflows guess = Normal (IrrRun.rate run).
Proof.
  intros Hl. cbv zeta. unfold irr.
  destruct (irr_short pow cashflows guess Hl) as (r & -> & Hr).
  cbn. auto.
Qed.

Lemma irr_needs_two_cashflows_witness :
  is_finite (IrrRun.rate (irr_run (AR := js) [(-100)%float] 0.15%float)) = false.
Proof.
  apply (irr_needs_two_cashflows F64.pow_int [(-100)%float] 0.15%float).
  cbn. lia.
Defined.

(** X7.  A contract of no years ([contractYears <= 0]) gives the outlay
    alone: one yearly row, one cumulative entry [0 + (-upfront)], a
    monthly table of the placeholder row only, and a rate of return that
    is a non-finite Number (never null). *)
Theorem projection_without_years (pow : float -> float -> float)
        (cfg : ProjectionConfig float) :
  (contractYears cfg <= 0)%Z ->
  let s := buildYearlyProjection (AR := f64 pow) cfg in
  let upfront := (upfrontPercent cfg / 100 * (capacityKw cfg * capexPerKw cfg))%float in
  YearlySummary.rows s = [YearRow.mk 0 0 0 0 0 0 (- upfront)]%float
  /\ YearlySummary.cumulative s = [CumPoint.mk 0 (0 + - upfront)]%float
  /\ YearlySummary.paybackYear s = (if (0 <=? 0 + - upfront)%float then Some 0%Z else None)
  /\ (exists r, YearlySummary.irr s = Some r /\ is_finite r = false)
  /\ buildMonthlyProjection (AR := f64 pow) s =
     Normal (MonthlySummary.mk
               [MonthRow.mk "Y0-M0" "Y0" "-" 0 0 0 0 0 (- upfront)]%float
               [(0 + - upfront)%float]).
Proof.
  intros Hc s upfront.
  assert (Hrows : projectionRows (AR := f64 pow) cfg
                  = [YearRow.mk 0 0 0 0 0 0 (- upfront)]%float).
  { unfold projectionRows.
    replace (Z.to_nat (contractYears cfg)) with O by lia. reflexivity. }
  unfold s, buildYearlyProjection, buildMonthlyProjection.
  cbn [YearlySummary.rows YearlySummary.cumulative YearlySummary.paybackYear
       YearlySummary.irr].
  rewrite Hrows.
  split; [reflexivity|]. split; [reflexivity|]. split; [reflexivity|].
  split; [|reflexivity].
  destruct (irr_short pow (map YearRow.net [YearRow.mk 0 0 0 0 0 0 (- upfront)]%float)
                      (irr_guess (AR := f64 pow))) as (r & Hr & Hf).
  { cbn. lia. }
  exists r. split; [|exact Hf].
  unfold irr. rewrite Hr. reflexivity.
Qed.

Lemma projection_without_years_witness :
  length (YearlySummary.rows (buildYearlyProjection (AR := js) withoutYears)) = 1%nat.
Proof.
  destruct (projection_without_years F64.pow_int withoutYears) as [H _].
  - cbn. lia.
  - unfold js. rewrite H. reflexivity.
Defined.

(** ** The yearly table and the payback label *)

Lemma find_by_year {num : Type} (l : list (CumPoint.t num)) :
  forall (k i : nat) (c : CumPoint.t num),
    (forall j c', nth_error l j = Some c' -> CumPoint.year c' = Z.of_nat (k + j)) ->
    nth_error l i = Some c ->
    find (fun c' => (CumPoint.year c' =? Z.of_nat (k + i))%Z) l = Some c.
Proof.
  induction l as [|c0 l IH]; intros k i c Hal Hi.
  - destruct i; discriminate.
  - cbn [find]. pose proof (Hal O c0 eq_refl) as H0.
    destruct i as [|i].
    + cbn in Hi. injection Hi as <-.
      replace (CumPoint.year c0 =? Z.of_nat (k + 0))%Z with true
        by (symmetry; apply Z.eqb_eq; exact H0).
      reflexivity.
    + replace (CumPoint.year c0 =? Z.of_nat (k + S i))%Z with false
        by (symmetry; apply Z.eqb_neq; lia).
      replace (k + S i)%nat with (S k + i)%nat by lia.
      apply IH; [|exact Hi].
      intros j c' Hj. rewrite (Hal (S j) c' Hj). f_equal. lia.
Qed.

(** X8.  The yearly table has one line per row and its last column is
    the rounded running total of that very row: looking the cumulative
    entry up by year finds the entry of the same index, so the fallback
    value 0 is never shown. *)
Theorem yearly_table_running_total {num : Type} {AR : Arith num}
        (toFixed2 : num -> string) (cfg : ProjectionConfig num) :
  let s := buildYearlyProjection cfg in
  length (rowsYear toFixed2 s) = length (YearlySummary.rows s)
  /\ forall i r,
       nth_error (YearlySummary.rows s) i = Some r ->
       find (fun c => (CumPoint.year c =? YearRow.year r)%Z) (YearlySummary.cumulative s)
       = nth_error (YearlySummary.cumulative s) i
       /\ cumulativeOfYear s (YearRow.year r) = netUpTo (YearlySummary.rows s) i
       /\ exists tariffCell,
            nth_error (rowsYear toFixed2 s) i =
            Some [ CellNum (num_of_Z (Z.of_nat i));
                   CellNum (YearRow.generationKwh r);
                   CellText tariffCell;
                   CellNum (Math_round (YearRow.revenue r));
                   CellNum (Math_round (YearRow.omr r));
                   CellNum (Math_round (YearRow.emi r));
                   CellNum (Math_round (YearRow.net r));
                   CellNum (Math_round (netUpTo (YearlySummary.rows s) i)) ].
Proof.
  intros s. split; [unfold rowsYear; apply length_map|].
  intros i r Hr.
  destruct (cumulative_spec (projectionRows cfg)) as [Hlen Hnth].
  assert (Hyear : YearRow.year r = Z.of_nat i) by (apply (rows_year cfg i r Hr)).
  assert (Hci : nth_error (YearlySummary.cumulative s) i =
                Some (CumPoint.mk (YearRow.year r) (netUpTo (YearlySummary.rows s) i)))
    by (apply Hnth; exact Hr).
  assert (Hfind : find (fun c => (CumPoint.year c =? YearRow.year r)%Z)
                       (YearlySummary.cumulative s)
                  = nth_error (YearlySummary.cumulative s) i).
  { rewrite Hci, Hyear. apply (find_by_year _ O i).
    - intros j c' Hj.
      unfold s in Hj. cbn [buildYearlyProjection YearlySummary.cumulative] in Hj.
      destruct (nth_error (projectionRows cfg) j) as [rj|] eqn:Ej.
      + rewrite (Hnth j rj Ej) in Hj. injection Hj as <-. cbn.
        apply (rows_year cfg j rj Ej).
      + apply nth_error_None in Ej.
        assert (j < length (fold_left cumulativeStep (projectionRows cfg) []))%nat
          by (apply nth_error_Some; congruence).
        lia.
    - rewrite <- Hyear. exact Hci. }
  assert (Hcum : cumulativeOfYear s (YearRow.year r) = netUpTo (YearlySummary.rows s) i).
  { unfold cumulativeOfYear. rewrite Hfind, Hci. reflexivity. }
  split; [exact Hfind|]. split; [exact Hcum|].
  unfold rowsYear. rewrite nth_error_map, Hr. cbn [option_map].
  rewrite Hcum, Hyear.
  destruct (truthy (YearRow.tariff r)); eexists; reflexivity.
Qed.

(** The text of an integer followed by " yrs" never reads "beyond term". *)
Lemma years_text_not_beyond (z : Z) : (showZ z ++ " yrs")%string <> "beyond term"%string.
Proof.
  unfold showZ, NilZero.string_of_int, NilZero.string_of_uint.
  destruct (Z.to_int z) as [d|d]; destruct d; cbn; discriminate.
Qed.

(** X9.  The "Simple Payback" label reads "beyond term" in two cases:
    when the running total never reaches [>= 0] within the horizon, and
    also when it is already [>= 0] at row 0 (the payback year is then
    the Number 0, which the condition of the label takes for false).  In
    every other case the label is the payback year followed by " yrs". *)
Theorem payback_label {num : Type} {AR : Arith num} (cfg : ProjectionConfig num) :
  let s := buildYearlyProjection cfg in
  let rows := YearlySummary.rows s in
  (paybackText (YearlySummary.paybackYear s) = "beyond term"%string
   <-> (paidBackAt rows 0 = true
        \/ forall j, (j < length rows)%nat -> paidBackAt rows j = false))
  /\ (paidBackAt rows 0 = true -> YearlySummary.paybackYear s = Some 0%Z)
  /\ (forall p, YearlySummary.paybackYear s = Some p -> p <> 0%Z ->
                paybackText (YearlySummary.paybackYear s) = (showZ p ++ " yrs")%string).
Proof.
  cbv zeta. cbn [buildYearlyProjection YearlySummary.rows YearlySummary.paybackYear].
  pose proof (paybackFrom_spec (projectionRows cfg) 0%Z ($0)%num) as H.
  unfold paidBackAt, netUpTo, sum.
  set (rows := projectionRows cfg) in *.
  assert (Hlen : (0 < length rows)%nat) by (unfold rows, projectionRows; cbn; lia).
  destruct (paybackFrom 0 ($0)%num rows) as [p|].
  - destruct H as (k & -> & Hk & Hge & Hlt). cbn [paybackText Z.add].
    destruct k as [|k].
    + cbn [Z.of_nat Z.eqb]. split; [split; auto|]. split; [auto|].
      intros p Hp Hp0. congruence.
    + replace (Z.of_nat (S k) =? 0)%Z with false by (symmetry; apply Z.eqb_neq; lia).
      split; [split|split].
      * intros E. now apply years_text_not_beyond in E.
      * intros [H0 | Hnever].
        -- rewrite (Hlt O) in H0 by lia. discriminate H0.
        -- rewrite (Hnever (S k) Hk) in Hge. discriminate Hge.
      * intros H0. rewrite (Hlt O) in H0 by lia. discriminate H0.
      * intros p Hp _. injection Hp as <-. reflexivity.
  - cbn [paybackText]. split; [split; auto|]. split.
    + intros H0. rewrite (H O Hlen) in H0. discriminate H0.
    + intros p Hp. discriminate Hp.
Qed.

(** ** CSV export *)

Section CsvFacts.
Variable V : Type.
Variable String_ : V -> Js.str.

Lemma read_plain (s rest field : Js.str) record :
  hasSpecial s = false ->
  CsvReader.read (s ++ rest) CsvReader.Plain field record =
  CsvReader.read rest CsvReader.Plain (rev s ++ field) record.
Proof.
  revert field. induction s as [|c s IH]; intros field Hs; [reflexivity|].
  cbn [hasSpecial existsb] in Hs. apply orb_false_elim in Hs.
  destruct Hs as [Hc Hs]. apply orb_false_elim in Hc. destruct Hc as [Hc Hn].
  apply orb_false_elim in Hc. destruct Hc as [Hq Hco].
  cbn [app CsvReader.read]. rewrite Hq, Hco, Hn.
  rewrite (IH (c :: field) Hs). cbn [rev]. now rewrite <- app_assoc.
Qed.

Lemma read_quoted (s rest field : Js.str) record :
  CsvReader.read (doubleQuotes s ++ rest) CsvReader.InQuotes field record =
  CsvReader.read rest CsvReader.InQuotes (rev s ++ field) record.
Proof.
  revert field. induction s as [|c s IH]; intros field; [reflexivity|].
  cbn [doubleQuotes]. destruct (c =? Js.quote)%N eqn:Ec.
  - apply N.eqb_eq in Ec. subst c.
    cbn [app CsvReader.read]. rewrite N.eqb_refl.
    rewrite IH. cbn [rev]. now rewrite <- app_assoc.
  - cbn [app CsvReader.read]. rewrite Ec.
    rewrite IH. cbn [rev]. now rewrite <- app_assoc.
Qed.

Lemma encodes_plain (s : Js.str) : hasSpecial s = false -> encodes s s.
Proof.
  intros Hs. exists CsvReader.Plain. split; [now left|].
  intros rest record. rewrite read_plain by exact Hs. now rewrite app_nil_r.
Qed.

Lemma encodes_esc (v : option V) : encodes (esc V String_ v) (cellText V String_ v).
Proof.
  destruct v as [x|]; cbn [esc cellText].
  - destruct (hasSpecial (String_ x)) eqn:Hs.
    + exists CsvReader.QuoteSeen. split; [now right|].
      intros rest record. cbn [app CsvReader.read].
      change (Js.quote =? Js.quote)%N with true. cbv iota.
      rewrite <- app_assoc, read_quoted. cbn [app CsvReader.read].
      change (Js.quote =? Js.quote)%N with true. cbv iota.
      now rewrite app_nil_r.
    + now apply encodes_plain.
  - exists CsvReader.Plain. split; [now left|]. reflexivity.
Qed.

(** At the end of a field the two closed states read alike. *)
Lemma read_closed_comma q field rest record :
  q = CsvReader.Plain \/ q = CsvReader.QuoteSeen ->
  CsvReader.read (Js.comma :: rest) q field record =
  CsvReader.read rest CsvReader.Plain [] (rev field :: record).
Proof. intros [-> | ->]; reflexivity. Qed.

Lemma read_closed_newline q field rest record :
  q = CsvReader.Plain \/ q = CsvReader.QuoteSeen ->
  CsvReader.read (Js.newline :: rest) q field record =
  rev (rev field :: record) :: CsvReader.read rest CsvReader.Plain [] [].
Proof. intros [-> | ->]; reflexivity. Qed.

Lemma read_closed_end q field record :
  q = CsvReader.Plain \/ q = CsvReader.QuoteSeen ->
  CsvReader.read [] q field record = [rev (rev field :: record)].
Proof. intros [-> | ->]; reflexivity. Qed.

(** A line of encoded fields, read up to what follows it. *)
Lemma read_line (es ts : list Js.str) :
  Forall2 encodes es ts -> es <> [] ->
  forall record,
    (forall rest,
        CsvReader.read (Js.join [Js.comma] es ++ Js.newline :: rest)
                       CsvReader.Plain [] record =
        (rev record ++ ts) :: CsvReader.read rest CsvReader.Plain [] [])
    /\ CsvReader.read (Js.join [Js.comma] es) CsvReader.Plain [] record =
       [rev record ++ ts].
Proof.
  induction 1 as [|e t es ts He Hes IH]; intros Hne record; [congruence|].
  destruct He as (q & Hq & He).
  destruct es as [|e2 es].
  - inversion Hes; subst. cbn [Js.join]. split.
    + intros rest. rewrite He, read_closed_newline by exact Hq.
      now rewrite rev_involutive.
    + rewrite <- (app_nil_r e), He, read_closed_end by exact Hq.
      now rewrite rev_involutive.
  - assert (Hne2 : e2 :: es <> []) by discriminate.
    specialize (IH Hne2 (t :: record)).
    destruct IH as [IH1 IH2].
    change (Js.join [Js.comma] (e :: e2 :: es))
      with (e ++ [Js.comma] ++ Js.join [Js.comma] (e2 :: es)).
    split.
    + intros rest. rewrite <- !app_assoc, He. cbn [app].
      rewrite read_closed_comma by exact Hq. rewrite rev_involutive.
      rewrite IH1. cbn [rev]. now rewrite <- app_assoc.
    + rewrite He. cbn [app].
      rewrite read_closed_comma by exact Hq. rewrite rev_involutive.
      etransitivity; [apply IH2|]. cbn [rev]. now rewrite <- app_assoc.
Qed.

(** Lines of encoded fields joined by newlines. *)
Lemma read_lines (ls : list (list Js.str)) (ts : list (list Js.str)) :
  Forall2 (fun es t => Forall2 encodes es t /\ es <> []) ls ts -> ls <> [] ->
  CsvReader.parse (Js.join [Js.newline] (map (Js.join [Js.comma]) ls)) = ts.
Proof.
  unfold CsvReader.parse.
  induction 1 as [|es t ls ts [He Hne] Hls IH]; intros Hnil; [congruence|].
  destruct (read_line es t He Hne []) as [H1 H2]. cbn [rev app] in H1, H2.
  destruct ls as [|es2 ls].
  - inversion Hls; subst. cbn [map Js.join]. exact H2.
  - change (Js.join [Js.newline] (map (Js.join [Js.comma]) (es :: es2 :: ls)))
      with (Js.join [Js.comma] es
              ++ [Js.newline] ++ Js.join [Js.newline] (map (Js.join [Js.comma]) (es2 :: ls))).
    cbn [app]. rewrite H1. f_equal. apply IH. discriminate.
Qed.

(** The whole text: the header line, then the lines of the rows. *)
Lemma read_csvText (headers : list Js.str) (dataRows : list (list (option V))) :
  headers <> [] ->
  Forall (fun h => hasSpecial h = false) headers ->
  Forall (fun r => r <> []) dataRows ->
  CsvReader.parse (csvText V String_ headers dataRows) =
  headers :: map (map (cellText V String_)) dataRows.
Proof.
  intros Hh Hplain Hrows. unfold csvText.
  change ([Js.join [Js.comma] headers]
            ++ map (fun r => Js.join [Js.comma] (map (esc V String_) r)) dataRows)
    with (Js.join [Js.comma] headers
            :: map (fun r => Js.join [Js.comma] (map (esc V String_) r)) dataRows).
  rewrite <- (map_map (map (esc V String_)) (Js.join [Js.comma])).
  change (Js.join [Js.comma] headers :: map (Js.join [Js.comma])
                                           (map (map (esc V String_)) dataRows))
    with (map (Js.join [Js.comma]) (headers :: map (map (esc V String_)) dataRows)).
  apply read_lines; [|discriminate].
  constructor.
  - split; [|exact Hh].
    clear Hh. induction Hplain; constructor; auto using encodes_plain.
  - clear Hh Hplain. induction Hrows as [|r rs Hr Hrs IH]; cbn [map]; constructor.
    + split.
      * clear Hr. induction r; cbn [map]; constructor; auto using encodes_esc.
      * destruct r; [congruence | discriminate].
    + exact IH.
Qed.

(** X10.  The exported CSV text reads back, in the usual convention
    for comma-separated text, as the header line followed by one record
    per data row whose fields are the texts [String(v)] of the cells (the
    empty text for [null] and [undefined]).  It holds for cells of any
    content, quotes, commas and newlines included, provided every row
    has at least one cell and the headers, which are written unescaped,
    are not empty and hold no quote, comma or newline. *)
Theorem csv_reads_back (headers : list Js.str) (dataRows : list (list (option V))) :
  headers <> [] ->
  Forall (fun h => hasSpecial h = false) headers ->
  Forall (fun r => r <> []) dataRows ->
  CsvReader.parse (csvText V String_ headers dataRows) =
  headers :: map (map (cellText V String_)) dataRows.
Proof. exact (read_csvText headers dataRows). Qed.

(** A cell without a quote, comma or newline is written as it is; any
    other is wrapped in quotes, so its text starts with a quote. *)
Lemma esc_injective (x y : V) :
  esc V String_ (Some x) = esc V String_ (Some y) -> String_ x = String_ y.
Proof.
  intros E.
  destruct (encodes_esc (Some x)) as (q1 & Hq1 & H1).
  destruct (encodes_esc (Some y)) as (q2 & Hq2 & H2).
  specialize (H1 [] []). specialize (H2 [] []).
  rewrite app_nil_r in H1, H2. rewrite E, H2 in H1.
  rewrite !read_closed_end in H1 by assumption.
  cbn [cellText rev app] in H1. rewrite !rev_involutive in H1.
  now injection H1.
Qed.
End CsvFacts.

(** X11.  [esc] loses nothing but the difference between an absent
    cell and an empty text: two non-null cells with the same escaped
    text have the same text, while [null], [undefined] and the empty
    string all export as the empty field. *)
Theorem esc_is_injective_on_texts (V : Type) (String_ : V -> Js.str) :
  (forall x y, esc V String_ (Some x) = esc V String_ (Some y) -> String_ x = String_ y)
  /\ (forall x, String_ x = [] -> esc V String_ (Some x) = esc V String_ None).
Proof.
  split.
  - apply esc_injective.
  - intros x Hx. cbn [esc]. now rewrite Hx.
Qed.

Lemma csv_reads_back_witness :
  CsvReader.parse
    (csvText Js.str (fun s => s) [[89; 101; 97; 114]; [78; 101; 116]]%N
             [[Some [49]; Some [49; 44; 53]]; [Some [34; 50; 34]; None]]%N)
  = [[[89; 101; 97; 114]; [78; 101; 116]];
     [[49]; [49; 44; 53]];
     [[34; 50; 34]; []]]%N.
Proof.
  rewrite (csv_reads_back Js.str (fun s => s)).
  - reflexivity.
  - discriminate.
  - repeat constructor.
  - repeat constructor; discriminate.
Defined.

(** ** The name of the exported PDF *)

Lemma collapseSpaces_no_space inRun (s : Js.str) :
  Forall (fun c => Js.isWhiteSpace c = false) (collapseSpaces inRun s).
Proof.
  revert inRun. induction s as [|c s IH]; intros inRun; cbn [collapseSpaces].
  - constructor.
  - destruct (Js.isWhiteSpace c) eqn:Ec.
    + destruct inRun; [apply IH|]. constructor; [reflexivity | apply IH].
    + constructor; [exact Ec | apply IH].
Qed.

Lemma collapseSpaces_plain inRun (s : Js.str) :
  Forall (fun c => Js.isWhiteSpace c = false) s ->
  (0 < length s)%nat \/ inRun = false ->
  collapseSpaces inRun s = s.
Proof.
  intros Hs. revert inRun. induction Hs as [|c s Hc Hs IH]; intros inRun Hr.
  - reflexivity.
  - cbn [collapseSpaces]. rewrite Hc. f_equal. apply IH. now right.
Qed.

(** Whatever precedes it, a code unit that is not whitespace restarts
    the scan. *)
Lemma collapseSpaces_cut inRun (a : Js.str) (x : N) (rest : Js.str) :
  Js.isWhiteSpace x = false ->
  collapseSpaces inRun (a ++ x :: rest) =
  collapseSpaces inRun (a ++ [x]) ++ collapseSpaces false rest.
Proof.
  intros Hx. revert inRun. induction a as [|c a IH]; intros inRun.
  - cbn [app collapseSpaces]. now rewrite Hx.
  - cbn [app collapseSpaces]. destruct (Js.isWhiteSpace c).
    + destruct inRun; cbn [app]; now rewrite IH.
    + cbn [app]. now rewrite IH.
Qed.

Lemma collapseSpaces_run (w : Js.str) (y : N) (b : Js.str) :
  Forall (fun c => Js.isWhiteSpace c = true) w ->
  Js.isWhiteSpace y = false ->
  collapseSpaces true (w ++ y :: b) = y :: collapseSpaces false b.
Proof.
  intros Hw Hy. induction Hw as [|c w Hc Hw IH]; cbn [app collapseSpaces].
  - now rewrite Hy.
  - now rewrite Hc.
Qed.

(** X12.  The name under which the PDF is saved holds no whitespace and
    ends in ".pdf": a title without whitespace is kept as it is, and
    every maximal run of whitespace between two other characters
    (spaces, tabs, line breaks, no-break spaces, in any number) becomes
    exactly one underscore; the name is never longer than the title plus
    the four characters of the extension. *)
Theorem pdf_file_name (title : Js.str) :
  Forall (fun c => Js.isWhiteSpace c = false) (pdfFileName title)
  /\ (exists stem, pdfFileName title = stem ++ [46; 112; 100; 102]%N
                   /\ (length stem <= length title)%nat)
  /\ (Forall (fun c => Js.isWhiteSpace c = false) title ->
      pdfFileName title = title ++ [46; 112; 100; 102]%N)
  /\ (forall a x w y b,
         title = a ++ x :: w ++ y :: b ->
         Js.isWhiteSpace x = false -> Js.isWhiteSpace y = false ->
         w <> [] -> Forall (fun c => Js.isWhiteSpace c = true) w ->
         pdfFileName title =
         collapseSpaces false (a ++ [x]) ++ Js.underscore :: pdfFileName (y :: b)).
Proof.
  unfold pdfFileName. split; [|split; [|split]].
  - apply Forall_app. split; [apply collapseSpaces_no_space|].
    repeat constructor.
  - eexists. split; [reflexivity|].
    generalize false. induction title as [|c t IH]; intros inRun; cbn [collapseSpaces].
    + cbn. lia.
    + pose proof (IH true) as IHt. pose proof (IH false) as IHf.
      destruct (Js.isWhiteSpace c); [destruct inRun|]; cbn [length]; lia.
  - intros Hp. rewrite collapseSpaces_plain; auto.
  - intros a x w y b -> Hx Hy Hne Hw.
    rewrite collapseSpaces_cut by exact Hx.
    rewrite <- app_assoc. f_equal.
    destruct w as [|c w]; [congruence|].
    inversion Hw as [|? ? Hc Hw']; subst.
    cbn [app collapseSpaces]. rewrite Hc, Hy. cbn [app].
    rewrite collapseSpaces_run by assumption. reflexivity.
Qed.

(** ** The keys of the monthly rows *)

(** The digits of a number end where the first other character
    starts: two digit strings followed by a dash are equal only
    digit for digit. *)
Lemma digits_then_dash (d1 d2 : Decimal.uint) (r1 r2 : string) :
  (NilEmpty.string_of_uint d1 ++ "-" ++ r1)%string =
  (NilEmpty.string_of_uint d2 ++ "-" ++ r2)%string ->
  d1 = d2 /\ r1 = r2.
Proof.
  revert d2. induction d1 as [|d1 IH|d1 IH|d1 IH|d1 IH|d1 IH|d1 IH|d1 IH|d1 IH|d1 IH|d1 IH];
    intros d2 H; destruct d2; cbn in H; try discriminate H;
    try (injection H as H; apply IH in H; destruct H as [-> ->]; now split).
  injection H as ->. now split.
Qed.

Lemma showZ_digits (z : Z) :
  (0 <= z)%Z ->
  exists d, showZ z = NilEmpty.string_of_uint d /\ Z.to_int z = Decimal.Pos d.
Proof.
  intros Hz. unfold showZ. destruct z as [|p|p]; [| |lia].
  - exists (Decimal.D0 Decimal.Nil). split; reflexivity.
  - exists (Pos.to_uint p). split; [|reflexivity].
    cbn [Z.to_int NilZero.string_of_int]. unfold NilZero.string_of_uint.
    pose proof (DecimalPos.Unsigned.to_uint_nonnil p) as Hn.
    destruct (Pos.to_uint p); [congruence | reflexivity ..].
Qed.

(** The key of a month determines its year and its month. *)
Lemma month_key_injective (y y' m m' : Z) :
  (0 <= y)%Z -> (0 <= y')%Z -> (0 <= m)%Z -> (0 <= m')%Z ->
  ("Y" ++ showZ y ++ "-M" ++ showZ m)%string =
  ("Y" ++ showZ y' ++ "-M" ++ showZ m')%string ->
  y = y' /\ m = m'.
Proof.
  intros Hy Hy' Hm Hm' H.
  destruct (showZ_digits y Hy) as (dy & Ey & Iy).
  destruct (showZ_digits y' Hy') as (dy' & Ey' & Iy').
  destruct (showZ_digits m Hm) as (dm & Em & Im).
  destruct (showZ_digits m' Hm') as (dm' & Em' & Im').
  rewrite Ey, Ey', Em, Em' in H. cbn [append] in H.
  injection H as H.
  apply digits_then_dash in H. destruct H as [<- H].
  injection H as H.
  assert (Hd : dm = dm').
  { apply (f_equal (fun s => (s ++ "-")%string)) in H.
    apply digits_then_dash in H. tauto. }
  subst dm'. split; apply DecimalZ.to_int_inj; congruence.
Qed.

Section MonthKeys.
Context {num : Type} {AR : Arith num}.

(** Every key of the loop names a year from [y] on and a month 1..12. *)
Lemma monthLoop_keys y (yrs : list (YearRow.t num)) (k : string) :
  In k (map MonthRow.key (monthLoop y yrs)) ->
  exists y' j, (y <= y')%Z /\ (j < 12)%nat
    /\ k = ("Y" ++ showZ y' ++ "-M" ++ showZ (Z.of_nat j + 1))%string.
Proof.
  revert y. induction yrs as [|yr rest IH]; intros y Hin; [contradiction|].
  cbn [monthLoop] in Hin. rewrite map_app, map_map in Hin.
  apply in_app_or in Hin. destruct Hin as [Hin | Hin].
  - apply in_map_iff in Hin. destruct Hin as (j & <- & Hj).
    apply in_seq in Hj. exists y, j. repeat split; [lia | lia].
  - apply IH in Hin. destruct Hin as (y' & j & Hy & Hj & ->).
    exists y', j. repeat split; [lia | exact Hj].
Qed.

Lemma monthLoop_keys_NoDup y (yrs : list (YearRow.t num)) :
  (0 <= y)%Z -> NoDup (map MonthRow.key (monthLoop y yrs)).
Proof.
  revert y. induction yrs as [|yr rest IH]; intros y Hy; [constructor|].
  cbn [monthLoop]. rewrite map_app, map_map. apply NoDup_app.
  - apply NoDup_map_NoDup_ForallPairs; [|apply seq_NoDup].
    intros j j' Hj Hj' E. cbn [monthRow MonthRow.key] in E.
    apply month_key_injective in E; try lia.
  - apply IH. lia.
  - intros k Hin Hin'.
    apply in_map_iff in Hin. destruct Hin as (j & <- & Hj).
    apply monthLoop_keys in Hin'. destruct Hin' as (y' & j' & Hy' & Hj' & E).
    cbn [monthRow MonthRow.key] in E.
    apply month_key_injective in E; lia.
Qed.
End MonthKeys.

(** X13.  The monthly builder throws exactly when the yearly summary
    has no rows; otherwise it returns the placeholder row followed by
    12 rows for each further yearly row, as many cumulative entries, and
    keys that are pairwise different (they serve as row identities in
    the table). *)
Theorem monthly_rows_have_unique_keys {num : Type} {AR : Arith num}
        (yearly : YearlySummary.t num) :
  (buildMonthlyProjection yearly = Throw <-> YearlySummary.rows yearly = [])
  /\ forall m,
       buildMonthlyProjection yearly = Normal m ->
       length (MonthlySummary.rows m) =
         (1 + 12 * (length (YearlySummary.rows yearly) - 1))%nat
       /\ length (MonthlySummary.cumulative m) = length (MonthlySummary.rows m)
       /\ NoDup (map MonthRow.key (MonthlySummary.rows m)).
Proof.
  unfold buildMonthlyProjection.
  destruct (YearlySummary.rows yearly) as [|r0 yrs].
  - split; [split; reflexivity | discriminate].
  - split; [split; discriminate|].
    intros m Hm. injection Hm as <-.
    cbn [MonthlySummary.rows MonthlySummary.cumulative].
    split; [|split].
    + cbn [length]. rewrite monthLoop_length. lia.
    + cbn [length]. now rewrite runningNet_length.
    + cbn [map MonthRow.key]. constructor.
      * intros Hin. apply monthLoop_keys in Hin.
        destruct Hin as (y' & j & Hy & Hj & E).
        change "Y0-M0"%string with ("Y" ++ showZ 0 ++ "-M" ++ showZ 0)%string in E.
        apply month_key_injective in E; lia.
      * apply monthLoop_keys_NoDup. lia.
Qed.

(** ** Exact arithmetic: what holds up to rounding *)

Section ExactFacts.
Variable pow : Qc -> Qc -> Qc.
#[local] Open Scope Qc_scope.

Lemma exact_fold_plus (l : list Qc) (a : Qc) :
  fold_left Qcplus l a = a + fold_left Qcplus l 0.
Proof.
  revert a. induction l as [|x l IH]; intros a; cbn [fold_left].
  - ring.
  - rewrite (IH (a + x)), (IH (0 + x)). ring.
Qed.

(** The twelve rows of a year add the net of the year to the running
    total. *)
Lemma exact_block_total (y : Z) (yr : YearRow.t Qc) (a : Qc) :
  fold_left Qcplus
            (map MonthRow.net (map (monthRow (AR := exact pow) y yr) (seq 0 12))) a
  = a + YearRow.net yr.
Proof.
  rewrite exact_fold_plus. f_equal.
  change (map MonthRow.net (map (monthRow (AR := exact pow) y yr) (seq 0 12)))
    with (repeat (YearRow.net yr / Exact.of_Z 12) 12).
  assert (H0 : 0 = Exact.of_Z 0) by (apply Qc_is_canon; reflexivity).
  rewrite H0. apply (exact_twelve_shares pow).
Qed.

Lemma exact_monthLoop_total (y : Z) (yrs : list (YearRow.t Qc)) (a : Qc) :
  fold_left Qcplus (map MonthRow.net (monthLoop (AR := exact pow) y yrs)) a
  = fold_left Qcplus (map YearRow.net yrs) a.
Proof.
  revert y a. induction yrs as [|yr rest IH]; intros y a; [reflexivity|].
  cbn [monthLoop map fold_left]. rewrite map_app, fold_left_app.
  rewrite exact_block_total. apply IH.
Qed.

Lemma monthLoop_firstn {num : Type} {AR : Arith num} (y : Z)
      (yrs : list (YearRow.t num)) (k : nat) :
  firstn (12 * k) (monthLoop y yrs) = monthLoop y (firstn k yrs).
Proof.
  revert y k. induction yrs as [|yr rest IH]; intros y k.
  - now rewrite !firstn_nil.
  - destruct k as [|k].
    + rewrite Nat.mul_0_r. reflexivity.
    + cbn [monthLoop firstn]. rewrite firstn_app, length_map, length_seq.
      rewrite firstn_all2 by (rewrite length_map, length_seq; lia).
      replace (12 * S k - 12)%nat with (12 * k)%nat by lia.
      now rewrite IH.
Qed.
End ExactFacts.

(** X14.  In exact arithmetic the monthly running total at the last
    month of year [y] is the yearly running total of year [y]: entry
    [12 y] of the monthly [cumulative] equals [cumulative[y].value] of
    the yearly summary, for year 0 (the placeholder row) and for every
    contract year. *)
Theorem monthly_cumulative_meets_yearly (pow : Qc -> Qc -> Qc)
        (cfg : ProjectionConfig Qc) :
  let s := buildYearlyProjection (AR := exact pow) cfg in
  exists m,
    buildMonthlyProjection (AR := exact pow) s = Normal m
    /\ forall y c,
         nth_error (YearlySummary.cumulative s) y = Some c ->
         nth_error (MonthlySummary.cumulative m) (12 * y) = Some (CumPoint.value c).
Proof.
  intros s.
  destruct (cumulative_spec (AR := exact pow) (projectionRows (AR := exact pow) cfg))
    as [Hlen Hy].
  unfold s, buildMonthlyProjection.
  cbn [buildYearlyProjection YearlySummary.rows YearlySummary.cumulative].
  set (rows := projectionRows (AR := exact pow) cfg) in *.
  destruct rows as [|r0 yrs] eqn:Erows; [discriminate|].
  eexists. split; [reflexivity|]. intros y c Hc.
  cbn [MonthlySummary.cumulative].
  assert (Hlt : (y < length (r0 :: yrs))%nat)
    by (rewrite <- Hlen; apply nth_error_Some; congruence).
  destruct (nth_error (r0 :: yrs) y) as [r|] eqn:Er.
  2:{ apply nth_error_None in Er. lia. }
  rewrite (Hy y r Er) in Hc. injection Hc as <-. cbn [CumPoint.value].
  cbn [length] in Hlt.
  rewrite runningNet_nth
    by (cbn [length]; rewrite monthLoop_length; lia).
  f_equal. unfold netUpTo, sum. cbn [firstn map fold_left MonthRow.net].
  rewrite monthLoop_firstn. apply exact_monthLoop_total.
Qed.

(** *** The installment is the annuity of the loan *)

Section Annuity.
#[local] Open Scope Qc_scope.

Lemma exact_Qnum_of_Z (z : Z) : Qnum (Exact.of_Z z) = z.
Proof.
  unfold Exact.of_Z, Q2Qc. cbn [this].
  rewrite Qred_identity; [reflexivity|]. cbn. apply Z.gcd_1_r.
Qed.

Lemma exact_Qnum_opp_of_Z (z : Z) : Qnum (Qcopp (Exact.of_Z z)) = (- z)%Z.
Proof.
  unfold Qcopp, Q2Qc. cbn [this].
  unfold Exact.of_Z, Q2Qc. cbn [this].
  rewrite (Qred_identity (inject_Z z)) by (cbn; apply Z.gcd_1_r).
  rewrite Qred_identity; [reflexivity|]. cbn. rewrite Z.gcd_opp_l. apply Z.gcd_1_r.
Qed.

Lemma exact_pow_nat (b : Qc) (t : nat) :
  exact_pow b (Exact.of_Z (Z.of_nat t)) = b ^ t.
Proof.
  unfold exact_pow. rewrite exact_Qnum_of_Z.
  destruct t as [|t]; [reflexivity|].
  cbn [Z.of_nat]. now rewrite SuccNat2Pos.id_succ.
Qed.

Lemma exact_pow_neg (b : Qc) (n : nat) :
  (1 <= n)%nat -> exact_pow b (Qcopp (Exact.of_Z (Z.of_nat n))) = / (b ^ n).
Proof.
  intros Hn. unfold exact_pow. rewrite exact_Qnum_opp_of_Z.
  destruct n as [|n]; [lia|].
  cbn [Z.of_nat Z.opp]. now rewrite SuccNat2Pos.id_succ.
Qed.

Lemma Qcpower_succ (q : Qc) (n : nat) : q ^ S n = q * q ^ n.
Proof. reflexivity. Qed.

Lemma Qcpower_nonzero (q : Qc) (n : nat) : q <> 0 -> q ^ n <> 0.
Proof.
  intros Hq. induction n as [|n IH]; [discriminate|].
  rewrite Qcpower_succ. intros E. apply Qcmult_integral in E. tauto.
Qed.

Lemma Qcpower_gt_1 (q : Qc) (n : nat) : 1 < q -> (1 <= n)%nat -> 1 < q ^ n.
Proof.
  intros Hq Hn. induction n as [|n IH]; [lia|].
  rewrite Qcpower_succ. destruct n as [|n].
  - cbn. now rewrite Qcmult_1_r.
  - assert (H1 : 1 < q ^ S n) by (apply IH; lia).
    apply Qclt_trans with (1 * q ^ S n).
    + now rewrite Qcmult_1_l.
    + apply Qcmult_lt_compat_r; [|exact Hq].
      apply Qclt_trans with 1; [reflexivity | exact H1].
Qed.

(** The discounted installments from period [i] on, as a closed form
    free of divisions: with [q = 1 + r], their sum [S - acc] satisfies
    [(S - acc) r q^(i+k) = c q (q^k - 1)]. *)
Lemma exact_installments (r c : Qc) (k i : nat) (acc : Qc) :
  1 + r <> 0 ->
  (fold_left Qcplus
             (discounted (AR := exact exact_pow) r (Z.of_nat i) (repeat c k)) acc
   - acc) * r * (1 + r) ^ (i + k)
  = c * (1 + r) * ((1 + r) ^ k - 1).
Proof.
  intros Hq. revert i acc. induction k as [|k IH]; intros i acc.
  - cbn [repeat discounted fold_left]. cbn. ring.
  - cbn [repeat discounted fold_left].
    replace (Z.of_nat i + 1)%Z with (Z.of_nat (S i)) by lia.
    cbn [nadd ndiv num_of_Z Math_pow exact].
    assert (H1 : Exact.of_Z 1 = 1) by (apply Qc_is_canon; reflexivity).
    rewrite H1, exact_pow_nat.
    specialize (IH (S i) (acc + c / (1 + r) ^ i)).
    replace (i + S k)%nat with (S i + k)%nat by lia.
    set (S := fold_left Qcplus _ _) in *.
    pose proof (Qcpower_nonzero (1 + r) i Hq) as Hi.
    assert (Hs : (S - acc) * r * (1 + r) ^ (Datatypes.S i + k)
                 = (S - (acc + c / (1 + r) ^ i)) * r * (1 + r) ^ (Datatypes.S i + k)
                   + c * r * (1 + r) ^ (Datatypes.S k)).
    { assert (Hp : (1 + r) ^ (Datatypes.S i + k) = (1 + r) ^ i * (1 + r) ^ Datatypes.S k).
      { clear. induction i as [|i IHi]; [cbn; ring|].
        change (Datatypes.S (Datatypes.S i) + k)%nat with (Datatypes.S (Datatypes.S i + k)).
        rewrite !Qcpower_succ in *. rewrite IHi. ring. }
      rewrite Hp. field. exact Hi. }
    rewrite Hs, IH, !Qcpower_succ. ring.
Qed.

Lemma exact_installments_rate_zero (c : Qc) (k : nat) (i : Z) (acc : Qc) :
  fold_left Qcplus (discounted (AR := exact exact_pow) 0 i (repeat c k)) acc
  = acc + Exact.of_Z (Z.of_nat k) * c.
Proof.
  revert i acc. induction k as [|k IH]; intros i acc.
  - cbn [repeat discounted fold_left Z.of_nat].
    assert (H0 : Exact.of_Z 0 = 0) by (apply Qc_is_canon; reflexivity).
    rewrite H0. ring.
  - cbn [repeat discounted fold_left]. rewrite IH.
    cbn [nadd ndiv num_of_Z Math_pow exact].
    assert (H1 : Exact.of_Z 1 + 0 = 1) by (apply Qc_is_canon; reflexivity).
    rewrite H1.
    assert (Hp : exact_pow 1 (Exact.of_Z i) = 1).
    { unfold exact_pow. destruct (Qnum (Exact.of_Z i)); [reflexivity | |];
        rewrite Qcpower_1; [reflexivity | apply Qc_is_canon; reflexivity]. }
    rewrite Hp.
    assert (Hk : Exact.of_Z (Z.of_nat (S k)) = Exact.of_Z (Z.of_nat k) + 1).
    { apply Qc_is_canon. unfold Exact.of_Z. cbn [this Qcplus Q2Qc].
      rewrite !Qred_correct. rewrite Nat2Z.inj_succ. unfold Z.succ.
      rewrite inject_Z_plus. reflexivity. }
    rewrite Hk. field. discriminate.
Qed.
End Annuity.

Section AnnuityIdentity.
#[local] Open Scope Qc_scope.

Lemma Qcpower_lt_1 (q : Qc) (n : nat) :
  0 < q -> q < 1 -> (1 <= n)%nat -> 0 < q ^ n /\ q ^ n < 1.
Proof.
  intros H0 H1 Hn. induction n as [|n IH]; [lia|].
  rewrite Qcpower_succ. destruct n as [|n].
  - cbn. rewrite Qcmult_1_r. now split.
  - destruct IH as [IH0 IH1]; [lia|]. split.
    + replace 0 with (0 * q ^ S n) by ring.
      apply Qcmult_lt_compat_r; assumption.
    + apply Qclt_trans with (1 * q ^ S n).
      * apply Qcmult_lt_compat_r; assumption.
      * now rewrite Qcmult_1_l.
Qed.

Lemma Qcpower_not_1 (q : Qc) (n : nat) :
  0 < q -> q <> 1 -> (1 <= n)%nat -> q ^ n <> 1.
Proof.
  intros H0 H1 Hn E.
  destruct (Qc_dec q 1) as [[Hlt | Hgt] | Heq]; [| |contradiction].
  - destruct (Qcpower_lt_1 q n H0 Hlt Hn) as [_ H]. rewrite E in H.
    exact (Qlt_irrefl _ H).
  - pose proof (Qcpower_gt_1 q n Hgt Hn) as H. rewrite E in H.
    exact (Qlt_irrefl _ H).
Qed.

Lemma exact_eqb_eq (a b : Qc) : Exact.eqb a b = true <-> a = b.
Proof.
  unfold Exact.eqb. rewrite Qeq_bool_iff. split.
  - apply Qc_is_canon.
  - intros ->. reflexivity.
Qed.
End AnnuityIdentity.

Section LoanRepaid.
#[local] Open Scope Qc_scope.

(** X15.  In exact arithmetic [pmt] is the annuity of the loan: for a
    rate above -100 % and at least one period, the principal [pv]
    followed by [n] installments [pmt rate n pv] has net present value 0
    at that rate, both on the zero-rate branch and on the general one. *)
Theorem installments_repay_the_loan (rate pv : Qc) (n : nat) :
  0 < 1 + rate -> (1 <= n)%nat ->
  npv (AR := exact exact_pow) rate
      (loanCashflows pv
         (pmt (AR := exact exact_pow) rate (Exact.of_Z (Z.of_nat n)) pv) n)
  = 0.
Proof.
  intros Hq Hn.
  assert (H0 : Exact.of_Z 0 = 0) by (apply Qc_is_canon; reflexivity).
  assert (H1 : Exact.of_Z 1 = 1) by (apply Qc_is_canon; reflexivity).
  assert (Hq0 : 1 + rate <> 0).
  { intros E. rewrite E in Hq. exact (Qlt_irrefl _ Hq). }
  unfold npv, reduce, loanCashflows. rewrite npv_from_discounted.
  cbn [discounted fold_left Z.add].
  set (c := pmt _ _ _).
  cbn [nadd ndiv num_of_Z Math_pow exact].
  rewrite H0, H1.
  assert (Hp0 : exact_pow (1 + rate) 0 = 1) by reflexivity.
  rewrite Hp0.
  replace (0 + pv / 1) with pv by (field; discriminate).
  subst c. unfold pmt.
  cbn [nadd nsub nmul ndiv nopp neqb num_of_Z Math_pow exact].
  rewrite H0, H1.
  destruct (Exact.eqb rate 0) eqn:E.
  - apply exact_eqb_eq in E. subst rate.
    pose proof (exact_installments_rate_zero
                  (- (pv / Exact.of_Z (Z.of_nat n))) n 1 pv) as HS.
    cbn [nadd ndiv num_of_Z Math_pow exact] in HS.
    etransitivity; [exact HS|].
    field. intros E.
    apply (f_equal (fun q : Qc => Qnum q)) in E.
    rewrite exact_Qnum_of_Z in E. cbn in E. lia.
  - assert (Hr : rate <> 0).
    { intros ->. discriminate E. }
    rewrite exact_pow_neg by exact Hn.
    assert (Hq1 : 1 + rate <> 1).
    { intros E1. apply Hr. 
      replace rate with ((1 + rate) - 1) by ring. rewrite E1. ring. }
    pose proof (Qcpower_not_1 (1 + rate) n Hq Hq1 Hn) as Hqn.
    pose proof (Qcpower_nonzero (1 + rate) n Hq0) as Hqn0.
    pose proof (Qcpower_nonzero (1 + rate) (1 + n) Hq0) as Hqn1.
    set (c := - (pv * rate) / (1 - / (1 + rate) ^ n)) in *.
    pose proof (exact_installments rate c n 1 pv Hq0) as HS.
    cbn [nadd ndiv num_of_Z Math_pow exact Z.of_nat Pos.of_succ_nat] in HS.
    set (S := fold_left Qcplus _ pv) in *.
    assert (Hc : c * (1 + rate) * ((1 + rate) ^ n - 1)
                 = - pv * rate * (1 + rate) ^ (1 + n)).
    { assert (Hqn' : (1 + rate) ^ n - 1 <> 0).
      { intros E1. apply Hqn.
        replace ((1 + rate) ^ n) with (((1 + rate) ^ n - 1) + 1) by ring.
        rewrite E1. ring. }
      subst c. change (1 + n)%nat with (Datatypes.S n).
      rewrite Qcpower_succ. field. repeat split; assumption. }
    rewrite Hc in HS.
    assert (HS' : S * (rate * (1 + rate) ^ (1 + n)) = 0).
    { transitivity ((S - pv) * rate * (1 + rate) ^ (1 + n)
                    + pv * rate * (1 + rate) ^ (1 + n)); [ring|].
      rewrite HS. ring. }
    apply Qcmult_integral in HS'. destruct HS' as [HS' | HS']; [exact HS'|].
    apply Qcmult_integral in HS'. tauto.
Qed.

Lemma installments_repay_the_loan_witness :
  npv (AR := exact exact_pow) (Q2Qc (1 # 10))
      (loanCashflows (Exact.of_Z 1000)
         (pmt (AR := exact exact_pow) (Q2Qc (1 # 10)) (Exact.of_Z 3)
              (Exact.of_Z 1000)) 3)
  = 0.
Proof.
  apply (installments_repay_the_loan (Q2Qc (1 # 10)) (Exact.of_Z 1000) 3).
  - reflexivity.
  - lia.
Defined.
End LoanRepaid.

(** *** Nothing paid upfront *)

Lemma eqb_zero_spec (x : float) :
  (x =? 0)%float = true -> exists s, Prim2SF x = S754_zero s.
Proof.
  rewrite eqb_spec, SF_zero.
  destruct (Prim2SF x) as [s|s| |s m e]; try destruct s; cbn;
    try discriminate; eauto.
Qed.

Lemma is_finite_spec (x : float) :
  is_finite x = true ->
  (exists s, Prim2SF x = S754_zero s) \/ (exists s m e, Prim2SF x = S754_finite s m e).
Proof.
  intros H. destruct (Prim2SF x) as [s|s| |s m e] eqn:E; eauto.
  - rewrite not_finite_spec in H; [discriminate | eauto].
  - rewrite not_finite_spec in H; [discriminate | eauto].
Qed.

(** A zero times a finite value is a zero, and [0 + (-z) >= 0] for
    either zero [z]. *)
Lemma zero_share_paid_at_once (p c : float) :
  (p =? 0)%float = true -> is_finite c = true ->
  (0 <=? 0 + - (p / 100 * c))%float = true.
Proof.
  intros Hp Hc.
  destruct (eqb_zero_spec p Hp) as [s Es].
  assert (E100 : Prim2SF 100%float = S754_finite false 7036874417766400 (-46))
    by (vm_compute; reflexivity).
  assert (Ez : exists s', Prim2SF (0 + - (p / 100 * c))%float = S754_zero s').
  { rewrite add_spec, opp_spec, mul_spec, div_spec, Es, E100, SF_zero.
    destruct (is_finite_spec c Hc) as [[sc ->] | (sc & m & e & ->)];
      destruct s, sc; cbn; eauto. }
  destruct Ez as [s' Ez].
  rewrite leb_spec, Ez, SF_zero. reflexivity.
Qed.

(** X16.  On binary64, when the upfront percentage is zero (of either
    sign) and the capex total is finite, the running total is already
    [>= 0] at row 0: the payback year is the Number 0, and the "Simple
    Payback" label, which takes 0 for false, reads "beyond term". *)
Theorem nothing_upfront_reads_beyond_term (pow : float -> float -> float)
        (cfg : ProjectionConfig float) :
  (upfrontPercent cfg =? 0)%float = true ->
  is_finite (capexTotal (AR := f64 pow) cfg) = true ->
  let s := buildYearlyProjection (AR := f64 pow) cfg in
  YearlySummary.paybackYear s = Some 0%Z
  /\ paybackText (YearlySummary.paybackYear s) = "beyond term"%string.
Proof.
  intros Hp Hc. cbv zeta.
  cbn [buildYearlyProjection YearlySummary.paybackYear].
  unfold projectionRows. cbn [paybackFrom row0 YearRow.net].
  unfold upfront.
  cbn [nadd nmul ndiv nopp nleb num_of_Z f64].
  change (F64.of_Z 0) with 0%float. change (F64.of_Z 100) with 100%float.
  rewrite (zero_share_paid_at_once _ _ Hp Hc). split; reflexivity.
Qed.

Lemma nothing_upfront_reads_beyond_term_witness :
  YearlySummary.paybackYear (buildYearlyProjection (AR := js) withoutUpfront) = Some 0%Z
  /\ paybackText (YearlySummary.paybackYear (buildYearlyProjection (AR := js) withoutUpfront))
     = "beyond term"%string.
Proof.
  apply (nothing_upfront_reads_beyond_term F64.pow_int withoutUpfront).
  - vm_compute. reflexivity.
  - vm_compute. reflexivity.
Defined.

(** *** The tables of the UI and their export *)

Section TableFacts.
Context {num : Type} {AR : Arith num}.
Variable toFixed2 : num -> string.
Variable roundUndefined : num.

Lemma rowsMonthFrom_length (cumulative : list num) idx (rows : list (MonthRow.t num)) :
  length (rowsMonthFrom toFixed2 roundUndefined cumulative idx rows) = length rows.
Proof.
  revert idx. induction rows as [|r rows IH]; intros idx; [reflexivity|].
  cbn [rowsMonthFrom length]. now rewrite IH.
Qed.

Lemma rowsMonthFrom_nth (cumulative : list num) idx (rows : list (MonthRow.t num)) i r :
  nth_error rows i = Some r ->
  exists tariffCell,
    nth_error (rowsMonthFrom toFixed2 roundUndefined cumulative idx rows) i =
    Some [ CellText (MonthRow.label r);
           CellText (MonthRow.month r);
           CellNum (MonthRow.generationKwh r);
           CellText tariffCell;
           CellNum (Math_round (MonthRow.revenue r));
           CellNum (Math_round (MonthRow.omr r));
           CellNum (Math_round (MonthRow.emi r));
           CellNum (Math_round (MonthRow.net r));
           CellNum (match nth_error cumulative (idx + i) with
                    | Some c => Math_round c
                    | None => roundUndefined
                    end) ].
Proof.
  revert idx i. induction rows as [|r0 rows IH]; intros idx i H.
  - destruct i; discriminate.
  - destruct i as [|i].
    + cbn [nth_error] in H. injection H as ->.
      cbn [rowsMonthFrom nth_error]. rewrite Nat.add_0_r.
      destruct (truthy (MonthRow.tariff r)); eexists; reflexivity.
    + cbn [nth_error] in H. cbn [rowsMonthFrom nth_error].
      destruct (IH (S idx) i H) as [t Ht]. exists t. rewrite Ht.
      now replace (S idx + i)%nat with (idx + S i)%nat by lia.
Qed.

Lemma rowsMonthFrom_width (cumulative : list num) idx (rows : list (MonthRow.t num)) :
  Forall (fun cells => length cells = 9%nat)
         (rowsMonthFrom toFixed2 roundUndefined cumulative idx rows).
Proof.
  revert idx. induction rows as [|r rows IH]; intros idx; cbn [rowsMonthFrom];
    constructor; [reflexivity | apply IH].
Qed.

Lemma rowsYear_width (yearly : YearlySummary.t num) :
  Forall (fun cells => length cells = 8%nat) (rowsYear toFixed2 yearly).
Proof.
  unfold rowsYear. apply Forall_forall. intros cells Hin.
  apply in_map_iff in Hin. destruct Hin as (r & <- & _). reflexivity.
Qed.
End TableFacts.

Lemma Forall_width_map {A B : Type} (f : A -> B) (n : nat) (l : list (list A)) :
  Forall (fun cells => length cells = n) l ->
  Forall (fun cells => length cells = n) (map (map f) l).
Proof.
  induction 1; cbn [map]; constructor; [now rewrite length_map | assumption].
Qed.

Lemma Forall_width_nonempty {A : Type} (n : nat) (l : list (list A)) :
  Forall (fun cells => length cells = S n) l -> Forall (fun cells => cells <> []) l.
Proof.
  apply Forall_impl. intros [|c cells] H; [discriminate H | discriminate].
Qed.

(** X17.  The monthly table has one line per monthly row, and the last
    cell of line [i] is the rounded running total of the net cash flows
    up to row [i]: the monthly builder returns as many cumulative
    entries as rows, so the table never reads past the end of
    [monthly.cumulative] and never shows the rounding of [undefined]. *)
Theorem monthly_table_running_total {num : Type} {AR : Arith num}
        (toFixed2 : num -> string) (roundUndefined : num)
        (yearly : YearlySummary.t num) :
  match buildMonthlyProjection yearly with
  | Throw => YearlySummary.rows yearly = []
  | Normal m =>
      length (rowsMonth toFixed2 roundUndefined m) = length (MonthlySummary.rows m)
      /\ forall i r,
           nth_error (MonthlySummary.rows m) i = Some r ->
           exists tariffCell,
             nth_error (rowsMonth toFixed2 roundUndefined m) i =
             Some [ CellText (MonthRow.label r);
                    CellText (MonthRow.month r);
                    CellNum (MonthRow.generationKwh r);
                    CellText tariffCell;
                    CellNum (Math_round (MonthRow.revenue r));
                    CellNum (Math_round (MonthRow.omr r));
                    CellNum (Math_round (MonthRow.emi r));
                    CellNum (Math_round (MonthRow.net r));
                    CellNum (Math_round (monthlyNetUpTo (MonthlySummary.rows m) i)) ]
  end.
Proof.
  unfold buildMonthlyProjection.
  destruct (YearlySummary.rows yearly) as [|r0 yrs]; [reflexivity|].
  cbv zeta. unfold rowsMonth. cbn [MonthlySummary.rows MonthlySummary.cumulative].
  set (rows := MonthRow.mk _ _ _ _ _ _ _ _ _ :: monthLoop 1 yrs).
  split; [apply rowsMonthFrom_length|].
  intros i r Hr.
  destruct (rowsMonthFrom_nth toFixed2 roundUndefined (runningNet ($0)%num rows)
                              0 rows i r Hr) as [t Ht].
  exists t. rewrite Ht. cbn [Nat.add].
  rewrite runningNet_nth by (apply nth_error_Some; congruence).
  reflexivity.
Qed.

(** X18.  Both CSV downloads are well formed: whatever the figures and
    however a cell is turned into text, the yearly and the monthly file
    read back as the header line followed by one record per table line,
    each record holding the texts of the cells of its line, 8 fields in
    every record of the yearly file and 9 in every record of the monthly
    one, as many as column titles. *)
Theorem exported_tables_read_back {num : Type} {AR : Arith num}
        (toFixed2 : num -> string) (roundUndefined : num)
        (String_ : Cell num -> Js.str)
        (yearly : YearlySummary.t num) (monthly : MonthlySummary.t num) :
  let yearFile := CsvReader.parse (yearlyCsv toFixed2 String_ yearly) in
  let monthFile := CsvReader.parse (monthlyCsv toFixed2 roundUndefined String_ monthly) in
  yearFile = headersYear :: map (map String_) (rowsYear toFixed2 yearly)
  /\ monthFile = headersMonth :: map (map String_) (rowsMonth toFixed2 roundUndefined monthly)
  /\ Forall (fun record => length record = length headersYear) yearFile
  /\ Forall (fun record => length record = length headersMonth) monthFile.
Proof.
  cbv zeta.
  assert (Hy : CsvReader.parse (yearlyCsv toFixed2 String_ yearly)
               = headersYear :: map (map String_) (rowsYear toFixed2 yearly)).
  { unfold yearlyCsv. rewrite read_csvText.
    - rewrite map_map. f_equal. apply map_ext. intros cells.
      rewrite map_map. reflexivity.
    - discriminate.
    - repeat constructor.
    - apply (Forall_width_nonempty 7), Forall_width_map, rowsYear_width. }
  assert (Hm : CsvReader.parse (monthlyCsv toFixed2 roundUndefined String_ monthly)
               = headersMonth :: map (map String_) (rowsMonth toFixed2 roundUndefined monthly)).
  { unfold monthlyCsv. rewrite read_csvText.
    - rewrite map_map. f_equal. apply map_ext. intros cells.
      rewrite map_map. reflexivity.
    - discriminate.
    - repeat constructor.
    - apply (Forall_width_nonempty 8), Forall_width_map, rowsMonthFrom_width. }
  rewrite Hy, Hm. repeat split.
  - constructor; [reflexivity|]. apply Forall_width_map, rowsYear_width.
  - constructor; [reflexivity|]. apply Forall_width_map, rowsMonthFrom_width.
Qed.
